(** * QP/C++ real-time embedded framework: event queue, kernel ports, BSP

    A shallow embedding of the parts of the QP/C++ sources that the
    specification talks about:

    - [QEQueue]     the native event queue declared in [include/qequeue.hpp];
    - [ArmCM]       the ISR-exit macros of the QK and QXK ports and the
                    sleep macro of the QV port for ARM Cortex-M;
    - [BSP]         the assertion handler and the pseudo-random generator of
                    the DPP example for the STM32F746G-Discovery board;
    - [QUTestPort]  the host/service parsing of [QS::onStartup] in the
                    Win32 QUTest port.

    The definitions come first, module by module; the properties follow. *)

From Stdlib Require Import ZArith Lia List Bool Ascii String.
From stdpp Require Import base list gmap.
Import ListNotations.

(** Outcome of a framework call that may end in the assertion handler
    [Q_onAssert], which does not return to its caller. *)
Inductive result (A : Type) : Type :=
| Ret (a : A)
| Fatal.
Arguments Ret {A} a.
Arguments Fatal {A}.

(* ====================================================================== *)
(** * The native event queue ([include/qequeue.hpp]) *)
(* ====================================================================== *)

Module QEQueue.

Section Queue.

(** Events are handled by pointer only ([QEvt const *]); a null pointer is
    [None]. *)
Variable QEvt : Type.

(** The data members of [class QEQueue], in the order of the header.
    [m_ring] is the externally provided storage, an array of event
    pointers. *)
Record QEQueue : Type := mkQEQueue {
  m_frontEvt : option QEvt;
  m_ring     : list (option QEvt);
  m_end      : nat;
  m_head     : nat;
  m_tail     : nat;
  m_nFree    : nat;
  m_nMin     : nat
}.

(** Inline accessors of the header. *)
Definition getNFree (q : QEQueue) : nat := m_nFree q.
Definition getNMin (q : QEQueue) : nat := m_nMin q.
Definition isEmpty (q : QEQueue) : bool :=
  match m_frontEvt q with None => true | Some _ => false end.

(** Modelled from the spec: the offsets [head] and [tail] of the data
    model move around the ring and wrap at [m_end] (part of the missing
    bodies of [post], [postLIFO] and [get]). *)
Definition ring_next (q : QEQueue) (i : nat) : nat :=
  if S i =? m_end q then 0 else S i.
Definition ring_prev (q : QEQueue) (i : nat) : nat :=
  if i =? 0 then m_end q - 1 else i - 1.

(** Modelled from the spec: reading "the tail slot" of the ring, a
    pointer load (part of the missing body of [get]). *)
Definition ring_at (q : QEQueue) (i : nat) : option QEvt :=
  match m_ring q !! i with Some p => p | None => None end.

(** Modelled from the spec: the bodies of [QEQueue::init], [post],
    [postLIFO] and [get] are missing (the header only declares them).
    The spec's data model is
    [{ front, ring, head, tail, n_free, n_min }] with counters given no
    width; they are natural numbers here, and [counters_in_range] below
    shows that they stay within [QEQueueCtr] whenever [qLen + 1] does.
    [init] follows the header note that the capacity is [qLen + 1] (the
    ring plus the front slot), so that the spec invariant
    [n_free + queued_count == capacity + 1] holds initially. *)
Definition init (qSto : list (option QEvt)) (qLen : nat) : QEQueue :=
  {| m_frontEvt := None;
     m_ring     := qSto;
     m_end      := qLen;
     m_head     := 0;
     m_tail     := 0;
     m_nFree    := qLen + 1;
     m_nMin     := qLen + 1 |}.

(** Modelled from the spec: [post(e, margin, ao_id) -> bool], FIFO post.
    "If n_free <= margin (margin 0 means must succeed or fatal), returns
    false; margin 0 with no space is a fatal assertion.  If empty, stores
    to front ...; else enqueues at head, decrements n_free, updates
    n_min."  The counter is decremented for the front slot as well, as
    the spec invariant counts the front slot. *)
Definition post (q : QEQueue) (e : QEvt) (margin : nat) (qs_id : nat)
  : result (bool * QEQueue) :=
  if m_nFree q <=? margin then
    if margin =? 0 then Fatal else Ret (false, q)
  else
    let nFree := m_nFree q - 1 in
    let nMin := if nFree <? m_nMin q then nFree else m_nMin q in
    match m_frontEvt q with
    | None =>
        Ret (true,
             {| m_frontEvt := Some e;
                m_ring     := m_ring q;
                m_end      := m_end q;
                m_head     := m_head q;
                m_tail     := m_tail q;
                m_nFree    := nFree;
                m_nMin     := nMin |})
    | Some _ =>
        Ret (true,
             {| m_frontEvt := m_frontEvt q;
                m_ring     := <[m_head q := Some e]> (m_ring q);
                m_end      := m_end q;
                m_head     := ring_next q (m_head q);
                m_tail     := m_tail q;
                m_nFree    := nFree;
                m_nMin     := nMin |})
    end.

(** Modelled from the spec: [post_lifo(e, ao_id)].  "If empty, goes to
    front.  Else the current front is pushed into the ring at the tail--
    slot and the new event becomes front.  Never accepts margin."  A
    full queue is the fatal "queue overflow with margin 0" of the
    spec's error handling design (the header: "raises an assertion if
    the native QF queue becomes full and cannot accept the event"). *)
Definition postLIFO (q : QEQueue) (e : QEvt) (qs_id : nat)
  : result QEQueue :=
  if m_nFree q =? 0 then Fatal
  else
    let nFree := m_nFree q - 1 in
    let nMin := if nFree <? m_nMin q then nFree else m_nMin q in
    match m_frontEvt q with
    | None =>
        Ret {| m_frontEvt := Some e;
               m_ring     := m_ring q;
               m_end      := m_end q;
               m_head     := m_head q;
               m_tail     := m_tail q;
               m_nFree    := nFree;
               m_nMin     := nMin |}
    | Some f =>
        let tail := ring_prev q (m_tail q) in
        Ret {| m_frontEvt := Some e;
               m_ring     := <[tail := Some f]> (m_ring q);
               m_end      := m_end q;
               m_head     := m_head q;
               m_tail     := tail;
               m_nFree    := nFree;
               m_nMin     := nMin |}
    end.

(** Modelled from the spec: [get(ao_id) -> Option<Event>].  "Dequeues
    from front; if the ring has items, the tail slot refills front;
    otherwise front := None."  The ring has items when fewer than
    [m_end] entries were free before the call. *)
Definition get (q : QEQueue) (qs_id : nat) : option QEvt * QEQueue :=
  match m_frontEvt q with
  | None => (None, q)
  | Some e =>
      if m_nFree q <? m_end q then
        (Some e,
         {| m_frontEvt := ring_at q (m_tail q);
            m_ring     := m_ring q;
            m_end      := m_end q;
            m_head     := m_head q;
            m_tail     := ring_next q (m_tail q);
            m_nFree    := m_nFree q + 1;
            m_nMin     := m_nMin q |})
      else
        (Some e,
         {| m_frontEvt := None;
            m_ring     := m_ring q;
            m_end      := m_end q;
            m_head     := m_head q;
            m_tail     := m_tail q;
            m_nFree    := m_nFree q + 1;
            m_nMin     := m_nMin q |})
  end.

(** ** Runs of queue operations

    A run starts at [init] and performs a list of operations.  Next to
    the queue object the run records, as bookkeeping that no operation
    reads, the events accepted and not yet handed out ([queued]: a FIFO
    post appends, a LIFO post prepends, a successful [get] drops the
    first) and every value that [m_nFree] has taken ([nfree_log], newest
    first). *)
Inductive op : Type :=
| OpPost (e : QEvt) (margin : nat) (qs_id : nat)
| OpPostLIFO (e : QEvt) (qs_id : nat)
| OpGet (qs_id : nat).

Record config : Type := mkConfig {
  queue     : QEQueue;
  queued    : list QEvt;
  nfree_log : list nat
}.

Definition queued_count (c : config) : nat := length (queued c).

Definition start (qSto : list (option QEvt)) (qLen : nat) : config :=
  let q := init qSto qLen in
  {| queue := q; queued := []; nfree_log := [m_nFree q] |}.

Definition step (c : config) (o : op) : result config :=
  match o with
  | OpPost e margin qs_id =>
      match post (queue c) e margin qs_id with
      | Ret (true, q') =>
          Ret {| queue := q'; queued := queued c ++ [e];
                 nfree_log := m_nFree q' :: nfree_log c |}
      | Ret (false, q') =>
          Ret {| queue := q'; queued := queued c;
                 nfree_log := m_nFree q' :: nfree_log c |}
      | Fatal => Fatal
      end
  | OpPostLIFO e qs_id =>
      match postLIFO (queue c) e qs_id with
      | Ret q' =>
          Ret {| queue := q'; queued := e :: queued c;
                 nfree_log := m_nFree q' :: nfree_log c |}
      | Fatal => Fatal
      end
  | OpGet qs_id =>
      match get (queue c) qs_id with
      | (Some _, q') =>
          Ret {| queue := q'; queued := tail (queued c);
                 nfree_log := m_nFree q' :: nfree_log c |}
      | (None, q') =>
          Ret {| queue := q'; queued := queued c;
                 nfree_log := m_nFree q' :: nfree_log c |}
      end
  end.

Fixpoint run (c : config) (ops : list op) : result config :=
  match ops with
  | [] => Ret c
  | o :: ops' =>
      match step c o with
      | Ret c' => run c' ops'
      | Fatal => Fatal
      end
  end.

(** Smallest element of a log. *)
Fixpoint lowest (l : list nat) : nat :=
  match l with
  | [] => 0
  | [x] => x
  | x :: l' => Nat.min x (lowest l')
  end.

(** ** Invariants of a run

    [count_inv]: the counter and the bookkeeping agree.  [log_inv]: the
    low-watermark is the smallest logged counter value.  [ring_inv]: the
    front slot holds the first queued event and the ring holds the others,
    in order, from [m_tail] up to [m_head] ([slot] is an offset taken
    around the ring). *)
Definition count_inv (qLen : nat) (c : config) : Prop :=
  m_end (queue c) = qLen
  /\ m_nFree (queue c) + queued_count c = qLen + 1
  /\ (queued c = [] -> m_frontEvt (queue c) = None).

Definition log_inv (c : config) : Prop :=
  (exists l, nfree_log c = m_nFree (queue c) :: l)
  /\ m_nMin (queue c) = lowest (nfree_log c).

Definition slot (qLen t i : nat) : nat := (t + i) mod qLen.

(** [holds qLen q l]: the queue object [q] over a ring of [qLen] slots
    holds the events [l], oldest first. *)
Definition holds (qLen : nat) (q : QEQueue) (l : list QEvt) : Prop :=
  m_end q = qLen
  /\ length (m_ring q) = qLen
  /\ m_nFree q + length l = qLen + 1
  /\ m_frontEvt q = head l
  /\ m_tail q <= qLen - 1
  /\ m_head q = slot qLen (m_tail q) (length (tail l))
  /\ (forall i x, tail l !! i = Some x ->
                  m_ring q !! slot qLen (m_tail q) i = Some (Some x)).

Definition ring_inv (qLen : nat) (c : config) : Prop :=
  holds qLen (queue c) (queued c).

(** The counters are of type [QEQueueCtr], an unsigned integer of
    [QF_EQUEUE_CTR_SIZE] bytes (1 unless the port says otherwise). *)
Definition QF_EQUEUE_CTR_SIZE : nat := 1.
Definition QEQueueCtr_max : nat := 2 ^ (8 * QF_EQUEUE_CTR_SIZE) - 1.

(** The largest value of a counter of [size] bytes ([size] is 1, 2 or
    4), and the queue objects that a [class QEQueue] with such counters
    can hold: all five counters are of type [QEQueueCtr]. *)
Definition QEQueueCtr_limit (size : nat) : nat := 2 ^ (8 * size) - 1.

Definition fits (size : nat) (q : QEQueue) : Prop :=
  m_end q <= QEQueueCtr_limit size
  /\ m_head q <= QEQueueCtr_limit size
  /\ m_tail q <= QEQueueCtr_limit size
  /\ m_nFree q <= QEQueueCtr_limit size
  /\ m_nMin q <= QEQueueCtr_limit size.

(** [offsets_inv]: the two offsets stay inside the ring. *)
Definition offsets_inv (qLen : nat) (c : config) : Prop :=
  m_head (queue c) <= qLen - 1 /\ m_tail (queue c) <= qLen - 1.

End Queue.

Arguments mkQEQueue {QEvt}.
Arguments m_frontEvt {QEvt}.
Arguments m_ring {QEvt}.
Arguments m_end {QEvt}.
Arguments m_head {QEvt}.
Arguments m_tail {QEvt}.
Arguments m_nFree {QEvt}.
Arguments m_nMin {QEvt}.
Arguments getNFree {QEvt}.
Arguments getNMin {QEvt}.
Arguments isEmpty {QEvt}.
Arguments ring_next {QEvt}.
Arguments ring_prev {QEvt}.
Arguments ring_at {QEvt}.
Arguments init {QEvt}.
Arguments post {QEvt}.
Arguments postLIFO {QEvt}.
Arguments get {QEvt}.
Arguments OpPost {QEvt}.
Arguments OpPostLIFO {QEvt}.
Arguments OpGet {QEvt}.
Arguments mkConfig {QEvt}.
Arguments queue {QEvt}.
Arguments queued {QEvt}.
Arguments nfree_log {QEvt}.
Arguments queued_count {QEvt}.
Arguments start {QEvt}.
Arguments step {QEvt}.
Arguments run {QEvt}.
Arguments count_inv {QEvt}.
Arguments log_inv {QEvt}.
Arguments holds {QEvt}.
Arguments ring_inv {QEvt}.
Arguments fits {QEvt}.
Arguments offsets_inv {QEvt}.

End QEQueue.

(* ====================================================================== *)
(** * ARM Cortex-M port macros (QK, QXK and QV ports) *)
(* ====================================================================== *)

Module ArmCM.

(** The port macros expand to short straight-line sequences of
    interrupt-control operations, one call of the scheduler, one store and
    the [dsb] and [wfi] instructions.  [QF_INT_DISABLE], [QF_INT_ENABLE],
    [QF_PRIMASK_DISABLE] and [QF_PRIMASK_ENABLE] come from [qf_port.hpp]
    and the scheduler from the kernel; they are primitive here. *)
Inductive instr : Type :=
| QF_INT_DISABLE
| QF_INT_ENABLE
| QF_PRIMASK_DISABLE
| QF_PRIMASK_ENABLE
| SCHED
| STORE32 (addr val : Z)
| DSB
| WFI.

#[global] Instance instr_eq_dec : EqDecision instr.
Proof. solve_decision. Defined.

(** Modelled from the spec: the effect of the interrupt-control macros of
    [qf_port.hpp], which is missing.  [QF_INT_DISABLE]/[QF_INT_ENABLE]
    disable and re-enable interrupts; [QF_PRIMASK_DISABLE]/
    [QF_PRIMASK_ENABLE] set and clear PRIMASK ("disable primask", "restore
    primask").  An interrupt can be taken only while neither mask is in
    force.  Memory maps word addresses to 32-bit values. *)
Record cpu : Type := mkCpu {
  int_disabled : bool;
  primask      : bool;
  mem          : gmap Z Z
}.

Definition masked (s : cpu) : bool := int_disabled s || primask s.

(** Modelled from the spec: what one operation does to the masks and to
    memory; the macros of [qf_port.hpp] are missing.  The scheduler call,
    [dsb] and [wfi] change neither. *)
Definition exec1 (s : cpu) (i : instr) : cpu :=
  match i with
  | QF_INT_DISABLE =>
      {| int_disabled := true; primask := primask s; mem := mem s |}
  | QF_INT_ENABLE =>
      {| int_disabled := false; primask := primask s; mem := mem s |}
  | QF_PRIMASK_DISABLE =>
      {| int_disabled := int_disabled s; primask := true; mem := mem s |}
  | QF_PRIMASK_ENABLE =>
      {| int_disabled := int_disabled s; primask := false; mem := mem s |}
  | STORE32 addr val =>
      {| int_disabled := int_disabled s; primask := primask s;
         mem := <[addr := val]> (mem s) |}
  | SCHED | DSB | WFI => s
  end.

Fixpoint exec (s : cpu) (p : list instr) : cpu :=
  match p with
  | [] => s
  | i :: p' => exec (exec1 s i) p'
  end.

(** Every instruction of a sequence paired with the state it executes
    in. *)
Fixpoint points (s : cpu) (p : list instr) : list (instr * cpu) :=
  match p with
  | [] => []
  | i :: p' => (i, s) :: points (exec1 s i) p'
  end.

(** The states in which the instructions up to and including the first
    [WFI] execute. *)
Fixpoint through_wfi (p : list (instr * cpu)) : list cpu :=
  match p with
  | [] => []
  | (WFI, s) :: _ => [s]
  | (_, s) :: p' => s :: through_wfi p'
  end.

(** [precedes a b p]: some occurrence of [a] in [p] comes before some
    occurrence of [b]. *)
Fixpoint precedes (a b : instr) (p : list instr) : bool :=
  match p with
  | [] => false
  | i :: p' =>
      (bool_decide (i = a) && existsb (fun j => bool_decide (j = b)) p')
      || precedes a b p'
  end.

(** Address of the Interrupt Control and State Register and its
    PENDSVSET bit. *)
Definition ICSR : Z := 0xE000ED04.
Definition PENDSVSET : Z := Z.shiftl 1 28.

(** [ports/arm-cm/qk/gnu/qk_port.hpp]: [__ARM_ARCH] selects the erratum
    workaround at compile time. *)
Definition QK_ARM_ERRATUM_838869 (ARM_ARCH : Z) : list instr :=
  if (ARM_ARCH =? 6)%Z then [] else [DSB].

(** [QK_ISR_EXIT()]; [QK_sched_] is the value returned by the call of
    the scheduler. *)
Definition QK_ISR_EXIT (ARM_ARCH : Z) (QK_sched_ : Z) : list instr :=
  [QF_INT_DISABLE; SCHED]
  ++ (if negb (QK_sched_ =? 0)%Z then [STORE32 ICSR PENDSVSET] else [])
  ++ [QF_INT_ENABLE]
  ++ QK_ARM_ERRATUM_838869 ARM_ARCH.

(** [ports/arm-cm/qxk/iar/qxk_port.hpp]. *)
Definition QXK_CONTEXT_SWITCH_ : list instr := [STORE32 ICSR PENDSVSET].

Definition QXK_ARM_ERRATUM_838869 (ARM_ARCH : Z) : list instr :=
  if (ARM_ARCH =? 6)%Z then [] else [DSB].

Definition QXK_ISR_EXIT (ARM_ARCH : Z) (QXK_sched_ : Z) : list instr :=
  [QF_INT_DISABLE; SCHED]
  ++ (if negb (QXK_sched_ =? 0)%Z then QXK_CONTEXT_SWITCH_ else [])
  ++ [QF_INT_ENABLE]
  ++ QXK_ARM_ERRATUM_838869 ARM_ARCH.

(** [ports/arm-cm/qv/iar/qv_port.hpp]: the sleep macro used inside
    [QV::onIdle()]. *)
Definition QV_CPU_SLEEP (ARM_ARCH : Z) : list instr :=
  if (ARM_ARCH =? 6)%Z then
    [WFI; QF_INT_ENABLE]
  else
    [QF_PRIMASK_DISABLE; QF_INT_ENABLE; WFI; QF_PRIMASK_ENABLE].

(** The order of operations that the specification gives for the ISR
    exit and for the idle sleep, for comparison with the macros. *)
Definition spec_isr_exit (ARM_ARCH : Z) (sched : Z) : list instr :=
  [QF_INT_DISABLE; SCHED]
  ++ (if negb (sched =? 0)%Z then [STORE32 ICSR PENDSVSET] else [])
  ++ (if (ARM_ARCH =? 6)%Z then [] else [DSB])
  ++ [QF_INT_ENABLE].

Definition spec_cpu_sleep : list instr :=
  [QF_PRIMASK_DISABLE; QF_INT_ENABLE; WFI; QF_PRIMASK_ENABLE].

End ArmCM.

(* ====================================================================== *)
(** * Board support package of the DPP example
      ([examples/arm-cm/dpp_stm32f746g-discovery/qxk/bsp.cpp]) *)
(* ====================================================================== *)

Module BSP.

Local Open Scope Z_scope.

(** Arithmetic of [uint32_t]. *)
Definition UINT32_MOD : Z := 2 ^ 32.
Definition mul32 (a b : Z) : Z := (a * b) mod UINT32_MOD.
Definition shr32 (a : Z) (n : Z) : Z := Z.shiftr a n.

(** The file-scope [static uint32_t l_rnd] is the only state that
    [random] and [randomSeed] touch. *)
Record bsp_state : Type := mkBsp { l_rnd : Z }.

(** The multiplier [3U*7U*11U*13U*23U] of the generator. *)
Definition LCG_MULT : Z := mul32 (mul32 (mul32 (mul32 3 7) 11) 13) 23.

(** [BSP::random()].  The local [float volatile x] only exercises the FPU
    and the scheduler lock around the update leaves [l_rnd] alone. *)
Definition random (st : bsp_state) : Z * bsp_state :=
  let rnd := mul32 (l_rnd st) LCG_MULT in
  (shr32 rnd 8, {| l_rnd := rnd |}).

(** [BSP::randomSeed(seed)]. *)
Definition randomSeed (seed : Z) (st : bsp_state) : bsp_state :=
  {| l_rnd := seed |}.

(** [n] successive calls of [random]. *)
Fixpoint random_calls (n : nat) (st : bsp_state) : list Z * bsp_state :=
  match n with
  | O => ([], st)
  | S n' =>
      let (r, st') := random st in
      let (rs, st'') := random_calls n' st' in
      (r :: rs, st'')
  end.

(** The sequence as a function of the seed alone. *)
Fixpoint lcg_values (n : nat) (x : Z) : list Z :=
  match n with
  | O => []
  | S n' =>
      let x' := (x * 69069) mod 2 ^ 32 in
      Z.shiftr x' 8 :: lcg_values n' x'
  end.

(** ** The assertion handler [Q_onAssert]

    The handler is straight-line code followed, in a debug build
    ([NDEBUG] not defined), by [for (;;) {}] and, in a release build, by
    the call of [NVIC_SystemReset()].  Control points of the function
    body: *)
Inductive build : Type :=
| Debug
| Release.

Inductive point : Type :=
| AtEntry
| AtQS_ASSERTION
| AtLED_On
| AtLoop
| AtSystemReset
| AtEnd
| SystemReset
| Returned.

Record frame : Type := mkFrame {
  at_point : point;
  module_  : string;
  loc      : Z
}.

(** One step of the handler.  [QS_ASSERTION] and [BSP_LED_On] are calls
    that come back; [NVIC_SystemReset()] resets the processor, after which
    nothing of this activation runs; falling off the closing brace at
    [AtEnd] would return to the caller. *)
Definition handler_step (b : build) (f : frame) : option frame :=
  let goto p := Some {| at_point := p; module_ := module_ f; loc := loc f |} in
  match at_point f with
  | AtEntry => goto AtQS_ASSERTION
  | AtQS_ASSERTION =>
      match b with
      | Debug => goto AtLED_On
      | Release => goto AtSystemReset
      end
  | AtLED_On => goto AtLoop
  | AtLoop => goto AtLoop
  | AtSystemReset => goto SystemReset
  | AtEnd => goto Returned
  | SystemReset => None
  | Returned => None
  end.

Fixpoint handler_run (b : build) (n : nat) (f : frame) : frame :=
  match n with
  | O => f
  | S n' =>
      match handler_step b f with
      | Some f' => handler_run b n' f'
      | None => f
      end
  end.

Definition Q_onAssert (module : string) (loc : Z) : frame :=
  {| at_point := AtEntry; module_ := module; loc := loc |}.

(** Control points from which the closing brace cannot be reached. *)
Definition no_return (p : point) : Prop :=
  match p with
  | AtEnd | Returned => False
  | _ => True
  end.

End BSP.

(* ====================================================================== *)
(** * Win32 QUTest port ([ports/win32-qutest/qutest_port.cpp]) *)
(* ====================================================================== *)

Module QUTestPort.

Definition NUL : ascii := "000"%char.
Definition COLON : ascii := ":"%char.

(** A C string is the list of its characters; the byte read at or past
    its end is the terminating NUL. *)
Definition deref (s : list ascii) (i : nat) : ascii := nth i s NUL.

(** The text of the C string that starts at a pointer: the characters up
    to the first NUL. *)
Fixpoint c_text (s : list ascii) : list ascii :=
  match s with
  | [] => []
  | c :: s' => if Ascii.eqb c NUL then [] else c :: c_text s'
  end.

Definition localhost : list ascii := list_ascii_of_string "localhost".
Definition default_service : list ascii := list_ascii_of_string "6601".

(** [sizeof(hostName)]. *)
Definition HOSTNAME_SIZE : nat := 128.

(** A store through [dst]; [None] when it falls outside the array. *)
Definition store (buf : list ascii) (i : nat) (c : ascii)
  : option (list ascii) :=
  if i <? length buf then Some (<[i := c]> buf) else None.

(** The copy loop: while the character at [src] is neither NUL nor a
    colon and [dst] is below [&hostName[sizeof(hostName) - 1]], copy it
    and advance both pointers.  [room] is the distance from [dst] to
    [&hostName[sizeof(hostName) - 1]], which shrinks by one per
    iteration; [src] and [dst] are offsets. *)
Fixpoint copy_loop (room : nat) (s : list ascii) (src dst : nat)
  (hostName : list ascii) : option (nat * nat * list ascii) :=
  match room with
  | O => Some (src, dst, hostName)
  | S room' =>
      if negb (Ascii.eqb (deref s src) NUL)
         && negb (Ascii.eqb (deref s src) COLON)
      then
        match store hostName dst (deref s src) with
        | Some hostName' => copy_loop room' s (S src) (S dst) hostName'
        | None => None
        end
      else Some (src, dst, hostName)
  end.

Record parsed : Type := mkParsed {
  hostName_buf : list ascii;
  host_len     : nat;
  serviceName  : list ascii
}.

(** The host and service extraction of [QS::onStartup(arg)]; [hostName]
    is the uninitialised local array.  [None] would be a store outside
    the array. *)
Definition onStartup_parse (arg : option (list ascii))
  (hostName : list ascii) : option parsed :=
  let s := match arg with Some a => a | None => localhost end in
  match copy_loop (HOSTNAME_SIZE - 1) s 0 0 hostName with
  | None => None
  | Some (src, dst, hostName1) =>
      match store hostName1 dst NUL with
      | None => None
      | Some hostName2 =>
          Some {| hostName_buf := hostName2;
                  host_len := dst;
                  serviceName :=
                    if Ascii.eqb (deref s src) COLON
                    then c_text (drop (S src) s)
                    else default_service |}
      end
  end.

(** What the argument denotes: the host is the text before the first
    [':'] (or the whole text), the service the text after it, when there
    is one. *)
Fixpoint split_arg (s : list ascii) : list ascii * option (list ascii) :=
  match s with
  | [] => ([], None)
  | c :: s' =>
      if Ascii.eqb c NUL then ([], None)
      else if Ascii.eqb c COLON then ([], Some (c_text s'))
      else let (h, r) := split_arg s' in (c :: h, r)
  end.

Definition arg_text (arg : option (list ascii)) : list ascii :=
  match arg with Some a => a | None => localhost end.

Definition spec_host (arg : option (list ascii)) : list ascii :=
  fst (split_arg (arg_text arg)).

Definition spec_service (arg : option (list ascii)) : list ascii :=
  match snd (split_arg (arg_text arg)) with
  | Some t => t
  | None => default_service
  end.

End QUTestPort.

(* ====================================================================== *)
(** * The tick interrupt of the DPP example
      ([examples/arm-cm/dpp_stm32f746g-discovery/qxk/bsp.cpp]) *)
(* ====================================================================== *)

Module SysTick.

Local Open Scope Z_scope.

(** The function-static [struct ButtonsDebouncing] of
    [SysTick_Handler]. *)
Record ButtonsDebouncing : Type := mkButtons {
  depressed : Z;
  previous  : Z
}.

(** Its initialiser [{ ~0U, ~0U }]. *)
Definition buttons_init : ButtonsDebouncing :=
  {| depressed := 2 ^ 32 - 1; previous := 2 ^ 32 - 1 |}.

(** The two static events the handler publishes. *)
Inductive signal : Type :=
| PAUSE_SIG
| SERVE_SIG.

(** The debouncing part of [SysTick_Handler]; [current] is what
    [BSP_PB_GetState(BUTTON_KEY)] returned.  The result is the new
    state and the event handed to [QF::PUBLISH], if any. *)
Definition debounce (buttons : ButtonsDebouncing) (current : Z)
  : ButtonsDebouncing * option signal :=
  let tmp := depressed buttons in
  let d1 := Z.lor (depressed buttons) (Z.land (previous buttons) current) in
  let d2 := Z.land d1 (Z.lor (previous buttons) current) in
  let buttons' := {| depressed := d2; previous := current |} in
  let tmp' := Z.lxor tmp d2 in
  (buttons',
   if negb (tmp' =? 0) then
     if negb (d2 =? 0) then Some PAUSE_SIG else Some SERVE_SIG
   else None).

(** Successive activations of the handler, one button sample each. *)
Fixpoint debounce_all (buttons : ButtonsDebouncing) (samples : list Z)
  : ButtonsDebouncing * list (option signal) :=
  match samples with
  | [] => (buttons, [])
  | current :: rest =>
      let (buttons', ev) := debounce buttons current in
      let (buttons'', evs) := debounce_all buttons' rest in
      (buttons'', ev :: evs)
  end.

Definition majority (a b c : bool) : bool :=
  (a && b) || (a && c) || (b && c).

(** The events published over a run, in order. *)
Definition published (evs : list (option signal)) : list signal :=
  omap id evs.

Definition signal_eqb (a b : signal) : bool :=
  match a, b with
  | PAUSE_SIG, PAUSE_SIG | SERVE_SIG, SERVE_SIG => true
  | _, _ => false
  end.

(** No two neighbours of the list are the same signal. *)
Fixpoint alternates (l : list signal) : bool :=
  match l with
  | a :: ((b :: _) as l') => negb (signal_eqb a b) && alternates l'
  | _ => true
  end.

(** A sample of one button. *)
Definition bit (c : Z) : Prop := c = 0 \/ c = 1.

(** The signal that a state with one button can publish next. *)
Definition next_signal (d : Z) : signal :=
  if d =? 0 then PAUSE_SIG else SERVE_SIG.

Definition starts_with (s : signal) (l : list signal) : Prop :=
  match l with
  | [] => True
  | a :: _ => a = s
  end.

(** ** The QS time stamp ([Q_SPY] builds)

    [QS_tickTime_] and [QS_tickPeriod_] are of type [QSTimeCtr], an
    unsigned integer whose width the QS port chooses; [TIME_MOD] is the
    number of its values.  [countflag] is the COUNTFLAG bit of
    [SysTick->CTRL], which the hardware clears when the register is read
    (the handler reads it for that purpose), and [val] is
    [SysTick->VAL]. *)
Record tick_clock : Type := mkClock {
  QS_tickTime_   : Z;
  QS_tickPeriod_ : Z;
  countflag      : bool;
  val            : Z
}.

Section TimeStamp.

Variable TIME_MOD : Z.

Definition QSTimeCtr (z : Z) : Z := z mod TIME_MOD.

(** The [Q_SPY] part of [SysTick_Handler]: read [CTRL], then
    [QS_tickTime_ += QS_tickPeriod_]. *)
Definition SysTick_Handler_time (k : tick_clock) : tick_clock :=
  {| QS_tickTime_   := QSTimeCtr (QS_tickTime_ k + QS_tickPeriod_ k);
     QS_tickPeriod_ := QS_tickPeriod_ k;
     countflag      := false;
     val            := val k |}.

(** [QS::onGetTime()]: the time stamp and the clock after the read of
    [CTRL]. *)
Definition onGetTime (k : tick_clock) : Z * tick_clock :=
  let k' := {| QS_tickTime_   := QS_tickTime_ k;
               QS_tickPeriod_ := QS_tickPeriod_ k;
               countflag      := false;
               val            := val k |} in
  if negb (countflag k) then
    (QSTimeCtr (QS_tickTime_ k - QSTimeCtr (val k)), k')
  else
    (QSTimeCtr (QSTimeCtr (QS_tickTime_ k + QS_tickPeriod_ k)
                - QSTimeCtr (val k)), k').

End TimeStamp.

End SysTick.

(* ====================================================================== *)
(** * Flushing the QS transmit buffer over the UART
      ([QS::onFlush] in the DPP example's [bsp.cpp]) *)
(* ====================================================================== *)

Module UartFlush.

Local Open Scope Z_scope.

Inductive event : Type :=
| IntDisable
| IntEnable
| GetByte (b : Z)
| WaitTXE
| WriteTDR (v : Z).

Section Flush.

(** [QS::getByte()] and [QS_EOD] belong to the QS component; the state
    of its transmit buffer is [QS_state]. *)
Variable QS_state : Type.
Variable getByte : QS_state -> Z * QS_state.
Variable QS_EOD : Z.

(** The loop [while ((b = getByte()) != QS_EOD) { ... }]: one unit of
    [fuel] per evaluation of the condition.  The flag tells whether the
    loop was left. *)
Fixpoint onFlush_loop (fuel : nat) (qs : QS_state)
  : list event * QS_state * bool :=
  match fuel with
  | O => ([], qs, false)
  | S fuel' =>
      let (b, qs') := getByte qs in
      if negb (b =? QS_EOD) then
        let '(tr, qs'', finished) := onFlush_loop fuel' qs' in
        (GetByte b :: IntEnable :: WaitTXE :: WriteTDR (Z.land b 0xFF)
           :: IntDisable :: tr,
         qs'', finished)
      else ([GetByte b], qs', true)
  end.

(** [QS::onFlush()]. *)
Definition onFlush (fuel : nat) (qs : QS_state)
  : list event * QS_state * bool :=
  let '(tr, qs', finished) := onFlush_loop fuel qs in
  (IntDisable :: tr ++ (if finished then [IntEnable] else []), qs',
   finished).

(** The bytes that [getByte] hands out before it reports the end of the
    data, at most [fuel] calls. *)
Fixpoint pending (fuel : nat) (qs : QS_state) : list Z :=
  match fuel with
  | O => []
  | S fuel' =>
      let (b, qs') := getByte qs in
      if negb (b =? QS_EOD) then b :: pending fuel' qs' else []
  end.

End Flush.

Arguments onFlush_loop {QS_state}.
Arguments onFlush {QS_state}.
Arguments pending {QS_state}.

(** Every event of a trace with the interrupt state it happens in
    ([true]: disabled). *)
Fixpoint annotate (off : bool) (tr : list event) : list (event * bool) :=
  match tr with
  | [] => []
  | e :: tr' =>
      (e, off) :: annotate (match e with
                            | IntDisable => true
                            | IntEnable => false
                            | _ => off
                            end) tr'
  end.

(** The interrupt state after a trace. *)
Fixpoint int_after (off : bool) (tr : list event) : bool :=
  match tr with
  | [] => off
  | e :: tr' =>
      int_after (match e with
                 | IntDisable => true
                 | IntEnable => false
                 | _ => off
                 end) tr'
  end.

Definition written (tr : list event) : list Z :=
  omap (fun e => match e with WriteTDR v => Some v | _ => None end) tr.

(** The discipline of the critical section: the buffer is read with
    interrupts disabled, the UART is waited for and written with
    interrupts enabled. *)
Definition disciplined (x : event * bool) : bool :=
  match x with
  | (GetByte _, off) => off
  | (WaitTXE, off) | (WriteTDR _, off) => negb off
  | _ => true
  end.

End UartFlush.

(* ====================================================================== *)
(** * The TCP link of the Win32 QUTest port
      ([ports/win32-qutest/qutest_port.cpp]) *)
(* ====================================================================== *)

Module QUTestSocket.

(** What one call of [send()] returns: [SOCKET_ERROR], with the code
    that [WSAGetLastError()] reports, or the number of bytes taken. *)
Inductive send_ret : Type :=
| SOCKET_ERROR (err : Z)
| nSent (n : nat).

Inductive call : Type :=
| Send (offered : list Z) (ret : send_ret)
| Sleep
| PrintError.

(** How the for-ever loop of [QS::onFlush] ends: by [break], by
    [return], or not yet, when the recorded answers of [send()] are used
    up. *)
Inductive ending : Type :=
| Break
| Return
| Retrying.

Section Flush.

Variable WSAEWOULDBLOCK : Z.

(** The for-ever loop around [send()].  [data] is the memory that the
    pointer [data] points to, [nBytes] the count; [answers] are the
    results of the successive calls of [send()].  The result is the
    ending, the calls made and the answers left. *)
Fixpoint send_loop (answers : list send_ret) (data : list Z) (nBytes : nat)
  : ending * list call * list send_ret :=
  match answers with
  | [] => (Retrying, [], [])
  | r :: answers' =>
      let offered := take nBytes data in
      match r with
      | SOCKET_ERROR err =>
          if (err =? WSAEWOULDBLOCK)%Z then
            let '(e, calls, unused) := send_loop answers' data nBytes in
            (e, Send offered r :: Sleep :: calls, unused)
          else (Return, [Send offered r; PrintError], answers')
      | nSent n =>
          if n <? nBytes then
            let '(e, calls, unused) :=
              send_loop answers' (drop n data) (nBytes - n) in
            (e, Send offered r :: Sleep :: calls, unused)
          else (Break, [Send offered r], answers')
      end
  end.

(** The loop [while ((data = getBlock(&nBytes)) != 0)]: [blocks] are the
    blocks that [getBlock] hands out, in order, until it returns null. *)
Fixpoint flush_blocks (answers : list send_ret) (blocks : list (list Z))
  : ending * list call * list (list Z) :=
  match blocks with
  | [] => (Break, [], [])
  | block :: blocks' =>
      match send_loop answers block (length block) with
      | (Break, calls, unused) =>
          let '(e, calls', rest) := flush_blocks unused blocks' in
          (e, calls ++ calls', rest)
      | (e, calls, _) => (e, calls, blocks')
      end
  end.

(** [QS::onFlush()]; [l_sock] is [None] for [INVALID_SOCKET]. *)
Definition onFlush (l_sock : option Z) (answers : list send_ret)
  (blocks : list (list Z)) : ending * list call * list (list Z) :=
  match l_sock with
  | None => (Return, [PrintError], blocks)
  | Some _ => flush_blocks answers blocks
  end.

End Flush.

(** The bytes the socket took, in order: of every successful [send()]
    the first [n] of the bytes offered. *)
Fixpoint accepted (calls : list call) : list Z :=
  match calls with
  | [] => []
  | Send offered (nSent n) :: calls' => take n offered ++ accepted calls'
  | _ :: calls' => accepted calls'
  end.

(** What the successive calls of [send()] returned. *)
Fixpoint rets (calls : list call) : list send_ret :=
  match calls with
  | [] => []
  | Send _ r :: calls' => r :: rets calls'
  | _ :: calls' => rets calls'
  end.

(** A socket that takes every block whole. *)
Definition takes_all (blocks : list (list Z)) : list send_ret :=
  map (fun block => nSent (length block)) blocks.

(** ** Opening the connection in [QS::onStartup]

    One entry of the list that [getaddrinfo()] returns, with what
    [socket()] and [connect()] answer for it ([None]:
    [INVALID_SOCKET]). *)
Record addr : Type := mkAddr {
  socket_ret : option Z;
  connect_ok : bool
}.

Inductive net_call : Type :=
| Socket (i : nat)
| Connect (i : nat) (s : Z)
| CloseSocket (s : Z).

(** The loop [for (rp = result; rp != NULL; rp = rp->ai_next)]; [i] is
    the position of [rp] in the list.  The result is [l_sock] and the
    calls made. *)
Fixpoint connect_loop (i : nat) (rps : list addr) (l_sock : option Z)
  : option Z * list net_call :=
  match rps with
  | [] => (l_sock, [])
  | rp :: rps' =>
      match socket_ret rp with
      | Some s =>
          if connect_ok rp then (Some s, [Socket i; Connect i s])
          else (None, [Socket i; Connect i s; CloseSocket s])
      | None =>
          let (l, calls) := connect_loop (S i) rps' None in
          (l, Socket i :: calls)
      end
  end.

Definition connects (calls : list net_call) : list nat :=
  omap (fun c => match c with Connect i _ => Some i | _ => None end) calls.

(** [QS::onCleanup()]: the socket closed, if any, and [l_sock]
    afterwards. *)
Definition onCleanup (l_sock : option Z) : list net_call * option Z :=
  match l_sock with
  | Some s => ([CloseSocket s], None)
  | None => ([], None)
  end.

End QUTestSocket.

(** The multiplier of [BSP::random] is odd, hence invertible modulo
    [2^32]; this is its inverse. *)
Definition LCG_INVERSE : Z := 2783094533.

(* ====================================================================== *)
(** * Properties of the pseudo-random generator *)
(* ====================================================================== *)

Section RandomFacts.

Import BSP.
Local Open Scope Z_scope.

Lemma LCG_MULT_value : LCG_MULT = 69069.
Proof. reflexivity. Qed.

Lemma random_unfold (st : bsp_state) :
  random st =
  (Z.shiftr ((l_rnd st * 69069) mod 2 ^ 32) 8,
   {| l_rnd := (l_rnd st * 69069) mod 2 ^ 32 |}).
Proof.
  unfold random, mul32, shr32, UINT32_MOD.
  rewrite LCG_MULT_value. reflexivity.
Qed.

Lemma random_calls_lcg (n : nat) :
  forall st, fst (random_calls n st) = lcg_values n (l_rnd st).
Proof.
  induction n as [|n IH]; intros st; [reflexivity|].
  cbn [random_calls lcg_values].
  rewrite random_unfold.
  specialize (IH {| l_rnd := (l_rnd st * 69069) mod 2 ^ 32 |}).
  destruct (random_calls n _) as [rs st''].
  cbn in IH |- *. now rewrite IH.
Qed.

Lemma random_range (st : bsp_state) :
  0 <= l_rnd (snd (random st)) < 2 ^ 32 /\ 0 <= fst (random st) < 2 ^ 24.
Proof.
  rewrite random_unfold. cbn [fst snd l_rnd].
  assert (H : 0 <= (l_rnd st * 69069) mod 2 ^ 32 < 2 ^ 32)
    by (apply Z.mod_pos_bound; lia).
  split; [exact H|].
  rewrite Z.shiftr_div_pow2 by lia.
  split.
  - apply Z.div_pos; lia.
  - apply Z.div_lt_upper_bound; lia.
Qed.

(** C9: for every stored seed [s], [BSP::random()] returns
    [((s * 69069) mod 2^32) >> 8] and stores [(s * 69069) mod 2^32] as the
    new seed, where 69069 = 3*7*11*13*23 computed in 32-bit unsigned
    arithmetic; after [BSP::randomSeed(x)] the values of successive calls
    are the function [lcg_values] of [x] alone, whatever the state was
    before seeding. *)
Theorem random_is_lcg (s x : Z) (n : nat) (st1 st2 : bsp_state) :
  LCG_MULT = 3 * 7 * 11 * 13 * 23
  /\ random {| l_rnd := s |} =
       (Z.shiftr ((s * 69069) mod 2 ^ 32) 8,
        {| l_rnd := (s * 69069) mod 2 ^ 32 |})
  /\ fst (random_calls n (randomSeed x st1)) = lcg_values n x
  /\ fst (random_calls n (randomSeed x st1))
     = fst (random_calls n (randomSeed x st2)).
Proof.
  split; [reflexivity|].
  split; [apply random_unfold|].
  rewrite !random_calls_lcg. cbn [randomSeed l_rnd]. split; reflexivity.
Qed.

End RandomFacts.

(* ====================================================================== *)
(** * Properties of the assertion handler *)
(* ====================================================================== *)

Section AssertFacts.

Import BSP.

Lemma handler_step_no_return (b : build) (f f' : frame) :
  no_return (at_point f) -> handler_step b f = Some f' ->
  no_return (at_point f').
Proof.
  unfold handler_step. intros Hs Hstep.
  destruct (at_point f), b; try discriminate; try contradiction;
    injection Hstep as <-; exact I.
Qed.

Lemma handler_run_no_return (b : build) (n : nat) :
  forall f, no_return (at_point f) ->
            no_return (at_point (handler_run b n f)).
Proof.
  induction n as [|n IH]; intros f Hf; [exact Hf|].
  cbn [handler_run].
  destruct (handler_step b f) as [f'|] eqn:Hstep; [|exact Hf].
  apply IH. eapply handler_step_no_return; eassumption.
Qed.

Lemma handler_run_add (b : build) (n m : nat) (f : frame) :
  (forall k, handler_run b k (handler_run b n f) = handler_run b n f) ->
  handler_run b (n + m) f = handler_run b n f.
Proof.
  revert f. induction n as [|n IH]; intros f Hfix.
  - apply (Hfix m).
  - cbn [Nat.add handler_run] in *.
    destruct (handler_step b f) as [f'|] eqn:Hstep; [|reflexivity].
    apply IH. exact Hfix.
Qed.

Lemma loop_forever (b : build) (k : nat) (f : frame) :
  at_point f = AtLoop -> handler_run b k f = f.
Proof.
  intros Hf. induction k as [|k IH]; [reflexivity|].
  cbn [handler_run]. unfold handler_step. rewrite Hf.
  destruct f as [p m l]. cbn in Hf. subst p. exact IH.
Qed.

Lemma reset_halts (b : build) (k : nat) (f : frame) :
  at_point f = SystemReset -> handler_run b k f = f.
Proof.
  intros Hf. destruct k as [|k]; [reflexivity|].
  cbn [handler_run]. unfold handler_step. now rewrite Hf.
Qed.

(** C7: [Q_onAssert] never returns to its caller.  For every module
    string and line number and in both builds, no number of steps of the
    handler reaches the return to the asserting code; from the third step
    on, the debug build sits in its endless loop and the release build has
    reset the system. *)
Theorem Q_onAssert_never_returns
  (b : build) (module : string) (loc : Z) (n : nat) :
  at_point (handler_run b n (Q_onAssert module loc)) <> Returned
  /\ at_point (handler_run b (3 + n) (Q_onAssert module loc))
     = match b with Debug => AtLoop | Release => SystemReset end.
Proof.
  split.
  - intros Hret.
    pose proof (handler_run_no_return b n (Q_onAssert module loc) I) as H.
    rewrite Hret in H. exact H.
  - rewrite handler_run_add.
    + destruct b; reflexivity.
    + intros k. destruct b.
      * apply loop_forever. reflexivity.
      * apply reset_halts. reflexivity.
Qed.

End AssertFacts.

(* ====================================================================== *)
(** * Properties of the ARM Cortex-M port macros *)
(* ====================================================================== *)

Section PortFacts.

Import ArmCM.
Local Open Scope Z_scope.

Lemma QXK_ISR_EXIT_eq_QK (arch sched : Z) :
  QXK_ISR_EXIT arch sched = QK_ISR_EXIT arch sched.
Proof. reflexivity. Qed.

Lemma QK_ISR_EXIT_cases (arch sched : Z) :
  QK_ISR_EXIT arch sched =
  match sched =? 0, arch =? 6 with
  | true, true => [QF_INT_DISABLE; SCHED; QF_INT_ENABLE]
  | true, false => [QF_INT_DISABLE; SCHED; QF_INT_ENABLE; DSB]
  | false, true =>
      [QF_INT_DISABLE; SCHED; STORE32 ICSR PENDSVSET; QF_INT_ENABLE]
  | false, false =>
      [QF_INT_DISABLE; SCHED; STORE32 ICSR PENDSVSET; QF_INT_ENABLE; DSB]
  end.
Proof.
  unfold QK_ISR_EXIT, QK_ARM_ERRATUM_838869.
  destruct (sched =? 0), (arch =? 6); reflexivity.
Qed.

(** C2, as the code has it: on ISR exit in the QK and QXK ports the
    macro disables interrupts, calls the scheduler, stores [1 << 28] to
    the word at [0xE000ED04] exactly when the scheduler returned a
    non-zero value, re-enables interrupts and only then executes the
    erratum 838869 workaround ([dsb], nothing when [__ARM_ARCH == 6]).
    The scheduler call and the store execute with interrupts disabled,
    and the macro leaves interrupts enabled. *)
Theorem isr_exit_sequence (arch sched : Z) (s : cpu) :
  QK_ISR_EXIT arch sched =
    [QF_INT_DISABLE; SCHED]
    ++ (if sched =? 0 then [] else [STORE32 0xE000ED04 (2 ^ 28)])
    ++ [QF_INT_ENABLE]
    ++ (if arch =? 6 then [] else [DSB])
  /\ QXK_ISR_EXIT arch sched = QK_ISR_EXIT arch sched
  /\ forallb (fun x : instr * cpu =>
                match fst x with
                | SCHED | STORE32 _ _ => int_disabled (snd x)
                | _ => true
                end) (points s (QK_ISR_EXIT arch sched)) = true
  /\ mem (exec s (QK_ISR_EXIT arch sched)) =
       (if sched =? 0 then mem s else <[0xE000ED04 := 2 ^ 28]> (mem s))
  /\ int_disabled (exec s (QK_ISR_EXIT arch sched)) = false
  /\ precedes DSB QF_INT_ENABLE (QK_ISR_EXIT arch sched) = false
  /\ precedes QF_INT_ENABLE DSB (QK_ISR_EXIT arch sched)
     = negb (arch =? 6).
Proof.
  split; [|split; [apply QXK_ISR_EXIT_eq_QK|]];
    rewrite QK_ISR_EXIT_cases;
    destruct (sched =? 0), (arch =? 6); repeat split; reflexivity.
Qed.

(** C2, counterexample: on ARMv7-M with a context switch due, the macro
    does not run the [dsb] before re-enabling interrupts, so its sequence
    differs from the one the specification gives. *)
Lemma isr_exit_order_counterexample :
  QK_ISR_EXIT 7 1 <> spec_isr_exit 7 1
  /\ QXK_ISR_EXIT 7 1 <> spec_isr_exit 7 1
  /\ precedes DSB QF_INT_ENABLE (QK_ISR_EXIT 7 1) = false
  /\ precedes DSB QF_INT_ENABLE (spec_isr_exit 7 1) = true.
Proof. repeat split; try discriminate; reflexivity. Qed.

(** C6, as the code has it: on ARMv7-M and above [QV_CPU_SLEEP] is the
    sequence disable PRIMASK, enable interrupts, WFI, enable PRIMASK; on
    ARMv6-M it is WFI followed by enabling interrupts.  In both, when the
    macro is entered with interrupts disabled, every instruction up to and
    including the WFI executes with interrupts masked, so no window opens
    before the WFI; afterwards the masks that the macro handles are
    open. *)
Theorem cpu_sleep_sequence (arch : Z) (s : cpu)
  (Hentry : int_disabled s = true) :
  QV_CPU_SLEEP arch =
    (if arch =? 6 then [WFI; QF_INT_ENABLE]
     else [QF_PRIMASK_DISABLE; QF_INT_ENABLE; WFI; QF_PRIMASK_ENABLE])
  /\ forallb masked (through_wfi (points s (QV_CPU_SLEEP arch))) = true
  /\ existsb (fun i => bool_decide (i = WFI)) (QV_CPU_SLEEP arch) = true
  /\ int_disabled (exec s (QV_CPU_SLEEP arch)) = false
  /\ primask (exec s (QV_CPU_SLEEP arch))
     = (if arch =? 6 then primask s else false).
Proof.
  unfold QV_CPU_SLEEP.
  destruct (arch =? 6); cbn; unfold masked; cbn; rewrite ?Hentry;
    repeat split; try reflexivity.
  all: destruct (primask s); reflexivity.
Qed.

Lemma cpu_sleep_sequence_witness :
  QV_CPU_SLEEP 7 =
    [QF_PRIMASK_DISABLE; QF_INT_ENABLE; WFI; QF_PRIMASK_ENABLE]
  /\ int_disabled
       (exec {| int_disabled := true; primask := false; mem := ∅ |}
             (QV_CPU_SLEEP 7)) = false.
Proof.
  pose proof (cpu_sleep_sequence 7
                {| int_disabled := true; primask := false; mem := ∅ |}
                eq_refl) as H.
  split; [exact (proj1 H) | exact (proj1 (proj2 (proj2 (proj2 H))))].
Defined.

(** C6, counterexample: on ARMv6-M the macro is not the four-step
    sequence. *)
Lemma cpu_sleep_v6m_counterexample :
  QV_CPU_SLEEP 6 <> spec_cpu_sleep
  /\ QV_CPU_SLEEP 6 = [WFI; QF_INT_ENABLE].
Proof. split; [discriminate | reflexivity]. Qed.

End PortFacts.

(* ====================================================================== *)
(** * Properties of the host-name parsing of the QUTest port *)
(* ====================================================================== *)

Section ParseFacts.

Import QUTestPort.

Lemma deref_drop (s : list ascii) (i : nat) :
  (drop i s = [] /\ deref s i = NUL)
  \/ (exists c, drop i s = c :: drop (S i) s /\ deref s i = c).
Proof.
  unfold deref. rewrite nth_lookup.
  destruct (s !! i) as [c|] eqn:Hl.
  - right. exists c. split; [|reflexivity].
    now apply drop_S.
  - left. split; [|reflexivity].
    apply drop_ge. now apply lookup_ge_None.
Qed.

Lemma split_arg_host_no_nul (s : list ascii) :
  Forall (fun c => Ascii.eqb c NUL = false) (fst (split_arg s)).
Proof.
  induction s as [|c s IH]; cbn [split_arg]; [constructor|].
  destruct (Ascii.eqb c NUL) eqn:Hn; [constructor|].
  destruct (Ascii.eqb c COLON); [constructor|].
  destruct (split_arg s) as [h r]. cbn [fst] in *.
  constructor; assumption.
Qed.

Lemma c_text_app_nul (h r : list ascii) :
  Forall (fun c => Ascii.eqb c NUL = false) h ->
  c_text (h ++ NUL :: r) = h.
Proof.
  induction 1 as [|c h Hc _ IH]; cbn.
  - reflexivity.
  - rewrite Hc, IH. reflexivity.
Qed.

(** The loop copies the host part of the text at [src], cut to the room
    that is left, and never stores outside the array. *)
Lemma copy_loop_spec (room : nat) :
  forall (s : list ascii) (src dst : nat) (buf : list ascii),
    dst + room <= length buf ->
    let h := fst (split_arg (drop src s)) in
    let k := Nat.min room (length h) in
    exists buf',
      copy_loop room s src dst buf = Some (src + k, dst + k, buf')
      /\ length buf' = length buf
      /\ take (dst + k) buf' = take dst buf ++ take room h.
Proof.
  induction room as [|room IH]; intros s src dst buf Hroom h k.
  - exists buf. subst k. cbn [Nat.min copy_loop].
    rewrite !Nat.add_0_r, take_0, app_nil_r. auto.
  - cbn [copy_loop].
    destruct (deref_drop s src) as [[Hd Hc]|[c [Hd Hc]]].
    + subst h k. rewrite Hd, Hc. cbn.
      exists buf. rewrite !Nat.add_0_r, app_nil_r. auto.
    + subst h k. rewrite Hd, Hc. cbn [split_arg].
      destruct (Ascii.eqb c NUL) eqn:Hn; cbn [negb andb fst length Nat.min].
      { exists buf. rewrite !Nat.add_0_r, take_nil, app_nil_r. auto. }
      destruct (Ascii.eqb c COLON) eqn:Hcol; cbn [negb andb fst length Nat.min].
      { exists buf. rewrite !Nat.add_0_r, take_nil, app_nil_r. auto. }
      unfold store.
      destruct (dst <? length buf) eqn:Hlt;
        [|apply Nat.ltb_ge in Hlt; lia].
      apply Nat.ltb_lt in Hlt.
      destruct (IH s (S src) (S dst) (<[dst := c]> buf)) as
          [buf' [Hrun [Hlen Htake]]].
      { rewrite length_insert. lia. }
      destruct (split_arg (drop (S src) s)) as [h' r'] eqn:Hsp.
      cbn [fst length Nat.min] in *.
      exists buf'. rewrite Hrun.
      rewrite !Nat.add_succ_r. cbn [Nat.add] in Htake |- *.
      split; [reflexivity|].
      split; [now rewrite Hlen, length_insert|].
      rewrite Htake. cbn [take].
      rewrite (take_S_r _ dst c) by (now apply list_lookup_insert_eq).
      rewrite take_insert_ge by lia.
      rewrite <- app_assoc. reflexivity.
Qed.

(** What follows the host part in the argument decides the service. *)
Lemma split_arg_next (s : list ascii) :
  match snd (split_arg s) with
  | Some t =>
      deref s (length (fst (split_arg s))) = COLON
      /\ c_text (drop (S (length (fst (split_arg s)))) s) = t
  | None => Ascii.eqb (deref s (length (fst (split_arg s)))) COLON = false
  end.
Proof.
  induction s as [|c s IH]; cbn [split_arg]; [reflexivity|].
  destruct (Ascii.eqb c NUL) eqn:Hn.
  { cbn. apply Ascii.eqb_eq in Hn. now subst c. }
  destruct (Ascii.eqb c COLON) eqn:Hcol.
  { cbn. apply Ascii.eqb_eq in Hcol. now subst c. }
  destruct (split_arg s) as [h r]. cbn [fst snd length] in *.
  destruct r as [t|]; exact IH.
Qed.

(** Beyond the room of the array the character under [src] still belongs
    to the host part, so it is no colon. *)
Lemma split_arg_inside (s : list ascii) :
  forall i, i < length (fst (split_arg s)) ->
            Ascii.eqb (deref s i) COLON = false.
Proof.
  induction s as [|c s IH]; cbn [split_arg]; intros i Hi.
  - cbn in Hi. lia.
  - destruct (Ascii.eqb c NUL) eqn:Hn; [cbn in Hi; lia|].
    destruct (Ascii.eqb c COLON) eqn:Hcol; [cbn in Hi; lia|].
    destruct (split_arg s) as [h r]. cbn [fst length] in *.
    destruct i as [|i]; [exact Hcol|].
    apply IH. lia.
Qed.

(** The complete account of the parsing. *)
Lemma onStartup_parse_spec (arg : option (list ascii))
  (hostName : list ascii) :
  length hostName = HOSTNAME_SIZE ->
  exists p,
    onStartup_parse arg hostName = Some p
    /\ host_len p = Nat.min 127 (length (spec_host arg))
    /\ length (hostName_buf p) = HOSTNAME_SIZE
    /\ hostName_buf p !! host_len p = Some NUL
    /\ c_text (hostName_buf p) = take 127 (spec_host arg)
    /\ serviceName p =
         (if length (spec_host arg) <=? 127 then spec_service arg
          else default_service).
Proof.
  intros Hlen. unfold onStartup_parse, spec_host, spec_service, arg_text.
  set (s := match arg with Some a => a | None => localhost end).
  destruct (copy_loop_spec (HOSTNAME_SIZE - 1) s 0 0 hostName)
    as [buf1 [Hrun [Hlen1 Htake]]].
  { rewrite Hlen. unfold HOSTNAME_SIZE. lia. }
  rewrite drop_0 in *. cbn [Nat.add] in *.
  change (HOSTNAME_SIZE - 1) with 127 in *.
  set (h := fst (split_arg s)) in *.
  set (k := Nat.min 127 (length h)) in *.
  rewrite Hrun. unfold store.
  assert (Hk : k < length buf1).
  { rewrite Hlen1, Hlen. unfold HOSTNAME_SIZE. subst k. lia. }
  destruct (k <? length buf1) eqn:Hlt; [|apply Nat.ltb_ge in Hlt; lia].
  eexists. split; [reflexivity|]. cbn [host_len hostName_buf serviceName].
  split; [reflexivity|].
  split; [now rewrite length_insert, Hlen1|].
  split; [now apply list_lookup_insert_eq|].
  split.
  - rewrite insert_take_drop by exact Hk.
    rewrite Htake, take_0, app_nil_l.
    apply c_text_app_nul.
    apply Forall_take, split_arg_host_no_nul.
  - destruct (length h <=? 127) eqn:Hle.
    + apply Nat.leb_le in Hle.
      replace k with (length h) by (subst k; lia).
      pose proof (split_arg_next s) as Hnext. fold h in Hnext.
      destruct (snd (split_arg s)) as [t|].
      * destruct Hnext as [Hc Ht]. rewrite Hc, Ht. reflexivity.
      * rewrite Hnext. reflexivity.
    + apply Nat.leb_gt in Hle.
      replace k with 127 by (subst k; lia).
      rewrite (split_arg_inside s 127) by (fold h; lia).
      reflexivity.
Qed.

(** C10, as the code has it: for every argument (the null pointer selects
    [localhost]) the parsing stores only inside the 128-byte array, copies
    at most 127 characters, terminates them with NUL, and the host name it
    leaves is the text before the first colon (or the whole text) cut to
    127 characters; when that text has at most 127 characters, the service
    name is the text after the first colon if there is one and [6601]
    otherwise. *)
Theorem onStartup_host_service (arg : option (list ascii))
  (hostName : list ascii) (Hsize : length hostName = HOSTNAME_SIZE) :
  exists p,
    onStartup_parse arg hostName = Some p
    /\ host_len p <= 127
    /\ length (hostName_buf p) = 128
    /\ hostName_buf p !! host_len p = Some NUL
    /\ c_text (hostName_buf p) = take 127 (spec_host arg)
    /\ (length (spec_host arg) <= 127 ->
        c_text (hostName_buf p) = spec_host arg
        /\ serviceName p = spec_service arg).
Proof.
  destruct (onStartup_parse_spec arg hostName Hsize)
    as [p [Hp [Hk [Hl [Hn [Hh Hs]]]]]].
  exists p. split; [exact Hp|].
  split; [rewrite Hk; lia|].
  split; [exact Hl|].
  split; [exact Hn|].
  split; [exact Hh|].
  intros Hshort. split.
  - rewrite Hh. apply take_ge. exact Hshort.
  - rewrite Hs. apply Nat.leb_le in Hshort. now rewrite Hshort.
Qed.

Lemma onStartup_host_service_witness :
  exists p,
    onStartup_parse (Some (list_ascii_of_string "10.0.0.7:7701"))
                    (replicate 128 "x"%char) = Some p
    /\ c_text (hostName_buf p) = list_ascii_of_string "10.0.0.7"
    /\ serviceName p = list_ascii_of_string "7701".
Proof.
  destruct (onStartup_host_service
              (Some (list_ascii_of_string "10.0.0.7:7701"))
              (replicate 128 "x"%char) eq_refl)
    as [p [Hp [_ [_ [_ [_ Hshort]]]]]].
  exists p. split; [exact Hp|].
  apply Hshort. vm_compute. lia.
Defined.

(** C10, counterexample: a host part of 128 characters followed by
    [:7000].  The copy stops when the array is full, the character under
    [src] is then no colon, and the service name stays [6601] although the
    argument has a colon with [7000] after it. *)
Lemma onStartup_long_host_counterexample :
  let arg := Some (replicate 128 "a"%char ++ list_ascii_of_string ":7000") in
  spec_service arg = list_ascii_of_string "7000"
  /\ exists p,
       onStartup_parse arg (replicate 128 NUL) = Some p
       /\ serviceName p = list_ascii_of_string "6601"
       /\ serviceName p <> spec_service arg.
Proof.
  split; [reflexivity|].
  eexists. split; [vm_compute; reflexivity|].
  split; [reflexivity | discriminate].
Qed.

End ParseFacts.

(* ====================================================================== *)
(** * Properties of the event queue *)
(* ====================================================================== *)

Section QueueFacts.

Import QEQueue.
Context {QEvt : Type}.
Implicit Types (q : QEQueue QEvt) (c : config QEvt) (e : QEvt).
Implicit Types (o : op QEvt) (ops : list (op QEvt)).

(** Case analysis on the branches of the three operations. *)
Ltac queue_cases H :=
  unfold post, postLIFO, get in H;
  repeat match type of H with
         | context [if ?b then _ else _] =>
             let E := fresh "E" in destruct b eqn:E
         | context [match m_frontEvt ?q with _ => _ end] =>
             let F := fresh "F" in destruct (m_frontEvt q) eqn:F
         end;
  try discriminate; simplify_eq;
  cbn [m_frontEvt m_ring m_end m_head m_tail m_nFree m_nMin
       queue queued nfree_log fst snd] in *.

Ltac to_lia :=
  repeat match goal with
         | H : (_ <=? _) = true |- _ => apply Nat.leb_le in H
         | H : (_ <=? _) = false |- _ => apply Nat.leb_gt in H
         | H : (_ <? _) = true |- _ => apply Nat.ltb_lt in H
         | H : (_ <? _) = false |- _ => apply Nat.ltb_ge in H
         | H : (_ =? _) = true |- _ => apply Nat.eqb_eq in H
         | H : (_ =? _) = false |- _ => apply Nat.eqb_neq in H
         end.

(** *** What [post] returns *)

Lemma post_refused q e margin qs_id :
  0 < margin -> m_nFree q <= margin ->
  post q e margin qs_id = Ret (false, q).
Proof.
  intros Hm Hn. unfold post.
  destruct (m_nFree q <=? margin) eqn:E; to_lia; [|lia].
  destruct (margin =? 0) eqn:E0; to_lia; [lia | reflexivity].
Qed.

Lemma post_fatal q e qs_id :
  m_nFree q = 0 -> post q e 0 qs_id = Fatal.
Proof. intros Hn. unfold post. now rewrite Hn. Qed.

Lemma post_accepted q e margin qs_id :
  margin < m_nFree q ->
  exists q', post q e margin qs_id = Ret (true, q')
             /\ m_nFree q' = m_nFree q - 1
             /\ m_end q' = m_end q
             /\ isEmpty q' = false.
Proof.
  intros Hn. unfold post.
  destruct (m_nFree q <=? margin) eqn:E; to_lia; [lia|].
  destruct (m_frontEvt q) eqn:F; eexists; (split; [reflexivity|]);
    unfold isEmpty; cbn; rewrite ?F; auto.
Qed.

(** *** The counter and the number of queued events *)

Lemma start_count_inv (qSto : list (option QEvt)) (qLen : nat) :
  count_inv qLen (start qSto qLen).
Proof. unfold count_inv, queued_count. cbn. auto. Qed.

Lemma step_count_inv qLen c o c' :
  count_inv qLen c -> step c o = Ret c' -> count_inv qLen c'.
Proof.
  unfold count_inv, queued_count.
  intros (Hend & Hcnt & Hfront) Hstep.
  destruct o as [e margin qs_id | e qs_id | qs_id]; cbn [step] in Hstep.
  - destruct (post (queue c) e margin qs_id) as [[[] q']|] eqn:Hp;
      simplify_eq; queue_cases Hp; to_lia;
      rewrite ?length_app; cbn [length];
      (split; [reflexivity|]); (split; [lia|]);
      intros Hnil; try (now apply app_eq_nil in Hnil as [_ ?]); auto.
  - destruct (postLIFO (queue c) e qs_id) as [q'|] eqn:Hp;
      simplify_eq; queue_cases Hp; to_lia; cbn [length];
      (split; [reflexivity|]); (split; [lia|]); discriminate.
  - destruct (get (queue c) qs_id) as [[e|] q'] eqn:Hp;
      simplify_eq; queue_cases Hp; to_lia.
    + destruct (queued c) as [|x l]; [specialize (Hfront eq_refl); congruence|].
      cbn [tail length] in *. split; [reflexivity|]. split; [lia|].
      intros ->. cbn [length] in Hcnt. lia.
    + destruct (queued c) as [|x l]; [specialize (Hfront eq_refl); congruence|].
      cbn [tail length] in *. split; [reflexivity|]. split; [lia|]. auto.
    + auto.
    + auto.
Qed.

Lemma run_count_inv qLen ops :
  forall c c', count_inv qLen c -> run c ops = Ret c' -> count_inv qLen c'.
Proof.
  induction ops as [|o ops IH]; intros c c' Hinv Hrun; cbn [run] in Hrun.
  - now simplify_eq.
  - destruct (step c o) as [c1|] eqn:Hstep; [|discriminate].
    eapply IH; [|exact Hrun]. eapply step_count_inv; eassumption.
Qed.

(** Posting with margin 0 as often as there are free entries succeeds
    and fills the queue. *)
Lemma fill_up e (k : nat) :
  forall c, m_nFree (queue c) = k ->
    exists c', run c (repeat (OpPost e 0 0) k) = Ret c'
               /\ m_nFree (queue c') = 0
               /\ queued_count c' = queued_count c + k.
Proof.
  induction k as [|k IH]; intros c Hk.
  - exists c. cbn. auto.
  - destruct (post_accepted (queue c) e 0 0) as (q' & Hp & Hn & _); [lia|].
    cbn [repeat run step]. rewrite Hp.
    edestruct IH as (c' & Hrun & H0 & Hc); [|exists c'; rewrite Hrun].
    + cbn. lia.
    + unfold queued_count in *. cbn in Hc. rewrite length_app in Hc.
      cbn in Hc. split; [reflexivity|]. split; [exact H0 | lia].
Qed.

(** *** The low-watermark *)

Lemma lowest_cons (x y : nat) (l : list nat) :
  lowest (x :: y :: l) = Nat.min x (lowest (y :: l)).
Proof. reflexivity. Qed.

Lemma lowest_le_head (x : nat) (l : list nat) : lowest (x :: l) <= x.
Proof. destruct l; [cbn; lia | rewrite lowest_cons; lia]. Qed.

Lemma start_log_inv (qSto : list (option QEvt)) (qLen : nat) :
  log_inv (start qSto qLen).
Proof. split; [exists []; reflexivity | reflexivity]. Qed.

Lemma step_log_inv c o c' :
  log_inv c -> step c o = Ret c' ->
  log_inv c' /\ m_nMin (queue c') <= m_nMin (queue c).
Proof.
  unfold log_inv. intros [[l Hl] Hmin] Hstep.
  pose proof (lowest_le_head (m_nFree (queue c)) l) as Hle.
  rewrite <- Hl, <- Hmin in Hle.
  destruct o as [e margin qs_id | e qs_id | qs_id]; cbn [step] in Hstep.
  - destruct (post (queue c) e margin qs_id) as [[[] q']|] eqn:Hp;
      simplify_eq; queue_cases Hp; to_lia;
      rewrite Hl in *; rewrite lowest_cons, <- Hmin;
      (split; [split; [eexists; reflexivity | lia] | lia]).
  - destruct (postLIFO (queue c) e qs_id) as [q'|] eqn:Hp;
      simplify_eq; queue_cases Hp; to_lia;
      rewrite Hl in *; rewrite lowest_cons, <- Hmin;
      (split; [split; [eexists; reflexivity | lia] | lia]).
  - destruct (get (queue c) qs_id) as [[e|] q'] eqn:Hp;
      simplify_eq; queue_cases Hp; to_lia;
      rewrite Hl in *; rewrite lowest_cons, <- Hmin;
      (split; [split; [eexists; reflexivity | lia] | lia]).
Qed.

Lemma run_log_inv ops :
  forall c c', log_inv c -> run c ops = Ret c' ->
               log_inv c' /\ m_nMin (queue c') <= m_nMin (queue c).
Proof.
  induction ops as [|o ops IH]; intros c c' Hinv Hrun; cbn [run] in Hrun.
  - simplify_eq. auto.
  - destruct (step c o) as [c1|] eqn:Hstep; [|discriminate].
    destruct (step_log_inv _ _ _ Hinv Hstep) as [Hinv1 Hle1].
    destruct (IH _ _ Hinv1 Hrun) as [Hinv' Hle']. split; [exact Hinv' | lia].
Qed.

(** *** Ring offsets *)

Lemma slot_lt (n t i : nat) : 0 < n -> slot n t i < n.
Proof. intros Hn. apply Nat.mod_upper_bound. lia. Qed.

Lemma slot_0 (n t : nat) : t < n -> slot n t 0 = t.
Proof. intros Ht. unfold slot. rewrite Nat.add_0_r. now apply Nat.mod_small. Qed.

Lemma slot_inj (n t i j : nat) :
  i < n -> j < n -> slot n t i = slot n t j -> i = j.
Proof.
  unfold slot. intros Hi Hj Heq.
  pose proof (Nat.div_mod_eq (t + i) n) as Di.
  pose proof (Nat.div_mod_eq (t + j) n) as Dj.
  rewrite Heq in Di.
  assert (Hq : (t + i) / n = (t + j) / n) by nia.
  rewrite Hq in Di. lia.
Qed.

Lemma ring_next_slot q (t i : nat) :
  0 < m_end q ->
  ring_next q (slot (m_end q) t i) = slot (m_end q) t (S i).
Proof.
  intros Hn. unfold ring_next, slot.
  pose proof (Nat.mod_upper_bound (t + i) (m_end q) ltac:(lia)) as Hlt.
  replace (t + S i) with (t + i + 1) by lia.
  rewrite <- (Nat.Div0.add_mod_idemp_l (t + i) 1).
  set (r := (t + i) mod m_end q) in *.
  destruct (S r =? m_end q) eqn:E; to_lia.
  - replace (r + 1) with (m_end q) by lia. now rewrite Nat.Div0.mod_same.
  - rewrite Nat.mod_small; lia.
Qed.

Lemma ring_next_tail q (t : nat) :
  t < m_end q -> ring_next q t = slot (m_end q) t 1.
Proof.
  intros Ht. rewrite <- (slot_0 (m_end q) t) at 1 by exact Ht.
  apply ring_next_slot. lia.
Qed.

Lemma slot_shift (n t i j : nat) : slot n (slot n t i) j = slot n t (i + j).
Proof.
  unfold slot. rewrite Nat.Div0.add_mod_idemp_l. f_equal. lia.
Qed.

Lemma ring_prev_slot q (t i : nat) :
  0 < m_end q -> t < m_end q ->
  slot (m_end q) (ring_prev q t) (S i) = slot (m_end q) t i.
Proof.
  intros Hn Ht. unfold ring_prev, slot.
  destruct (t =? 0) eqn:E; to_lia.
  - subst t. replace (m_end q - 1 + S i) with (0 + i + 1 * m_end q) by lia.
    apply Nat.Div0.mod_add.
  - f_equal. lia.
Qed.

Lemma ring_prev_lt q (t : nat) :
  0 < m_end q -> t < m_end q -> ring_prev q t < m_end q.
Proof. intros Hn Ht. unfold ring_prev. destruct (t =? 0); lia. Qed.

(** *** The ring holds the queued events in order *)

Lemma init_holds (qSto : list (option QEvt)) (qLen : nat) :
  length qSto = qLen -> holds qLen (init qSto qLen) [].
Proof.
  intros Hlen. unfold holds. cbn.
  split; [reflexivity|]. split; [exact Hlen|]. split; [lia|].
  split; [reflexivity|]. split; [lia|]. split.
  - unfold slot. destruct qLen; [reflexivity|].
    rewrite Nat.mod_small; lia.
  - intros i x Hi. discriminate.
Qed.

Lemma holds_nil_front qLen q (l : list QEvt) :
  holds qLen q l -> m_frontEvt q = None -> l = [].
Proof.
  intros (_ & _ & _ & Hfront & _) Hnone. rewrite Hnone in Hfront.
  destruct l; [reflexivity | discriminate].
Qed.

Lemma holds_cons_front qLen q (l : list QEvt) f :
  holds qLen q l -> m_frontEvt q = Some f -> exists rest, l = f :: rest.
Proof.
  intros (_ & _ & _ & Hfront & _) Hsome. rewrite Hsome in Hfront.
  destruct l as [|f' rest]; [discriminate|].
  cbn in Hfront. simplify_eq. eauto.
Qed.

(** An accepted FIFO post appends the event. *)
Lemma post_holds qLen q (l : list QEvt) e margin qs_id q' :
  holds qLen q l -> post q e margin qs_id = Ret (true, q') ->
  holds qLen q' (l ++ [e]).
Proof.
  intros Hrep Hp. unfold post in Hp.
  destruct (m_nFree q <=? margin) eqn:Hm;
    [destruct (margin =? 0); discriminate|].
  to_lia. destruct (m_frontEvt q) as [f|] eqn:Hf; simplify_eq.
  - (* into the ring at the head offset *)
    destruct (holds_cons_front _ _ _ _ Hrep Hf) as [rest ->].
    destruct Hrep as (Hend & Hlen & Hcnt & _ & Htail & Hhead & Hslots).
    cbn [head tail length app] in *. subst qLen.
    assert (Hn : 0 < m_end q) by lia.
    unfold holds. cbn [m_frontEvt m_ring m_end m_head m_tail m_nFree
                         head tail length app].
    rewrite length_insert, length_app. cbn [length].
    split; [reflexivity|]. split; [exact Hlen|]. split; [lia|].
    split; [reflexivity|]. split; [exact Htail|]. split.
    + rewrite Hhead, ring_next_slot by exact Hn. f_equal. lia.
    + intros i x Hi.
      destruct (decide (i = length rest)) as [->|Hne].
      * rewrite lookup_app_r, Nat.sub_diag in Hi by lia.
        cbn in Hi. simplify_eq. rewrite Hhead.
        apply list_lookup_insert_eq. rewrite Hlen. now apply slot_lt.
      * assert (Hi' : i < length rest).
        { apply lookup_lt_Some in Hi. rewrite length_app in Hi.
          cbn in Hi. lia. }
        rewrite lookup_app_l in Hi by exact Hi'.
        rewrite list_lookup_insert_ne; [now apply Hslots|].
        rewrite Hhead. intros Heq. apply slot_inj in Heq; lia.
  - (* straight into the front slot *)
    pose proof (holds_nil_front _ _ _ Hrep Hf) as ->.
    destruct Hrep as (Hend & Hlen & Hcnt & _ & Htail & Hhead & Hslots).
    unfold holds. cbn in *.
    split; [exact Hend|]. split; [exact Hlen|]. split; [lia|].
    split; [reflexivity|]. split; [exact Htail|]. split; [exact Hhead|].
    intros i x Hi. discriminate.
Qed.

(** A LIFO post prepends the event. *)
Lemma postLIFO_holds qLen q (l : list QEvt) e qs_id q' :
  holds qLen q l -> postLIFO q e qs_id = Ret q' -> holds qLen q' (e :: l).
Proof.
  intros Hrep Hp. unfold postLIFO in Hp.
  destruct (m_nFree q =? 0) eqn:Hm; [discriminate|].
  to_lia. destruct (m_frontEvt q) as [f|] eqn:Hf; simplify_eq.
  - (* the front event moves to the decremented tail offset *)
    destruct (holds_cons_front _ _ _ _ Hrep Hf) as [rest ->].
    destruct Hrep as (Hend & Hlen & Hcnt & _ & Htail & Hhead & Hslots).
    cbn [head tail length] in *. subst qLen.
    assert (Hn : 0 < m_end q) by lia.
    assert (Htail' : m_tail q < m_end q) by lia.
    pose proof (ring_prev_lt q (m_tail q) Hn Htail') as Hprev.
    unfold holds. cbn [m_frontEvt m_ring m_end m_head m_tail m_nFree
                         head tail length].
    rewrite length_insert.
    split; [reflexivity|]. split; [exact Hlen|]. split; [lia|].
    split; [reflexivity|]. split; [lia|]. split.
    + rewrite ring_prev_slot by assumption. exact Hhead.
    + intros [|i] x Hi; cbn in Hi; simplify_eq.
      * rewrite slot_0 by exact Hprev.
        apply list_lookup_insert_eq. now rewrite Hlen.
      * assert (Hi' : i < length rest) by (now apply lookup_lt_Some in Hi).
        rewrite ring_prev_slot by assumption.
        rewrite list_lookup_insert_ne; [now apply Hslots|].
        rewrite <- (ring_prev_slot q (m_tail q) i) by assumption.
        rewrite <- (slot_0 (m_end q) (ring_prev q (m_tail q))) at 1
          by exact Hprev.
        intros Heq. apply slot_inj in Heq; lia.
  - (* straight into the front slot *)
    pose proof (holds_nil_front _ _ _ Hrep Hf) as ->.
    destruct Hrep as (Hend & Hlen & Hcnt & _ & Htail & Hhead & Hslots).
    unfold holds. cbn in *.
    split; [exact Hend|]. split; [exact Hlen|]. split; [lia|].
    split; [reflexivity|]. split; [exact Htail|]. split; [exact Hhead|].
    intros i x Hi. discriminate.
Qed.

(** [get] hands out the first queued event and leaves the others. *)
Lemma get_holds qLen q (l : list QEvt) qs_id r q' :
  holds qLen q l -> get q qs_id = (r, q') ->
  r = head l /\ holds qLen q' (tail l).
Proof.
  intros Hrep Hg. unfold get in Hg.
  destruct (m_frontEvt q) as [f|] eqn:Hf.
  - destruct (holds_cons_front _ _ _ _ Hrep Hf) as [rest ->].
    destruct Hrep as (Hend & Hlen & Hcnt & _ & Htail & Hhead & Hslots).
    cbn [head tail length] in *. subst qLen.
    destruct (m_nFree q <? m_end q) eqn:Hring; to_lia; simplify_eq;
      (split; [reflexivity|]).
    + (* the ring refills the front slot *)
      destruct rest as [|x rest]; cbn [length] in *; [lia|].
      assert (Hn : 0 < m_end q) by lia.
      assert (Htail' : m_tail q < m_end q) by lia.
      pose proof (Hslots 0 x eq_refl) as H0.
      rewrite slot_0 in H0 by exact Htail'.
      pose proof (slot_lt (m_end q) (m_tail q) 1 Hn) as Hnext.
      unfold holds, ring_at.
      cbn [m_frontEvt m_ring m_end m_head m_tail m_nFree head tail length].
      rewrite H0, (ring_next_tail _ _ Htail').
      split; [reflexivity|]. split; [exact Hlen|]. split; [lia|].
      split; [reflexivity|]. split; [lia|]. split.
      * rewrite Hhead, slot_shift. reflexivity.
      * intros i y Hi. rewrite slot_shift. now apply Hslots.
    + (* the queue becomes empty *)
      destruct rest as [|x rest]; cbn [length] in *; [|lia].
      unfold holds. cbn.
      split; [reflexivity|]. split; [exact Hlen|]. split; [lia|].
      split; [reflexivity|]. split; [exact Htail|]. split; [exact Hhead|].
      intros i y Hi. discriminate.
  - simplify_eq. pose proof (holds_nil_front _ _ _ Hrep Hf) as ->.
    split; [reflexivity | exact Hrep].
Qed.

Lemma start_ring_inv (qSto : list (option QEvt)) (qLen : nat) :
  length qSto = qLen -> ring_inv qLen (start qSto qLen).
Proof. apply init_holds. Qed.

Lemma step_ring_inv qLen c o c' :
  ring_inv qLen c -> step c o = Ret c' -> ring_inv qLen c'.
Proof.
  unfold ring_inv. intros Hrep Hstep.
  destruct o as [e margin qs_id | e qs_id | qs_id]; cbn [step] in Hstep.
  - destruct (post (queue c) e margin qs_id) as [[[] q']|] eqn:Hp;
      simplify_eq; cbn [queue queued].
    + eapply post_holds; eassumption.
    + unfold post in Hp.
      destruct (m_nFree (queue c) <=? margin);
        [destruct (margin =? 0); now simplify_eq|].
      destruct (m_frontEvt (queue c)); discriminate.
  - destruct (postLIFO (queue c) e qs_id) as [q'|] eqn:Hp;
      simplify_eq; cbn [queue queued].
    eapply postLIFO_holds; eassumption.
  - destruct (get (queue c) qs_id) as [r q'] eqn:Hg.
    destruct (get_holds _ _ _ _ _ _ Hrep Hg) as [Hr Hrep'].
    destruct r as [e|]; simplify_eq; cbn [queue queued]; [exact Hrep'|].
    destruct (queued c); [exact Hrep' | discriminate].
Qed.

Lemma run_ring_inv qLen ops :
  forall c c', ring_inv qLen c -> run c ops = Ret c' -> ring_inv qLen c'.
Proof.
  induction ops as [|o ops IH]; intros c c' Hinv Hrun; cbn [run] in Hrun.
  - now simplify_eq.
  - destruct (step c o) as [c1|] eqn:Hstep; [|discriminate].
    eapply IH; [|exact Hrun]. eapply step_ring_inv; eassumption.
Qed.

(** No counter leaves the range of [QEQueueCtr] as long as [qLen + 1]
    is in it, which is why the counters are plain numbers here. *)
Lemma counters_in_range (qSto : list (option QEvt)) (qLen : nat) ops c :
  length qSto = qLen -> qLen + 1 <= QEQueueCtr_max ->
  run (start qSto qLen) ops = Ret c ->
  m_end (queue c) <= QEQueueCtr_max
  /\ m_head (queue c) <= QEQueueCtr_max
  /\ m_tail (queue c) <= QEQueueCtr_max
  /\ m_nFree (queue c) <= QEQueueCtr_max
  /\ m_nMin (queue c) <= QEQueueCtr_max.
Proof.
  intros Hsto Hmax Hrun.
  pose proof (run_ring_inv qLen ops _ _ (start_ring_inv qSto qLen Hsto) Hrun)
    as (Hend & _ & Hcnt & _ & Htail & Hhead & _).
  destruct (run_log_inv ops _ _ (start_log_inv qSto qLen) Hrun)
    as [_ Hmin].
  cbn [start queue init m_nMin] in Hmin.
  destruct (Nat.eq_0_gt_0_cases qLen) as [H0|Hpos].
  - subst qLen. rewrite H0 in *. unfold slot in Hhead.
    rewrite Nat.mod_0_r in Hhead.
    destruct (queued c) as [|f [|x rest]]; cbn [tail length] in *; lia.
  - pose proof (slot_lt qLen (m_tail (queue c))
                  (length (tail (queued c))) Hpos).
    lia.
Qed.

Lemma lowest_min (l : list nat) :
  l <> [] -> In (lowest l) l /\ Forall (fun x => lowest l <= x) l.
Proof.
  induction l as [|x l IH]; [congruence|]. intros _.
  destruct l as [|y l].
  - cbn. split; [auto | repeat constructor].
  - rewrite lowest_cons.
    destruct IH as [Hin Hall]; [discriminate|].
    split.
    + destruct (Nat.min_spec x (lowest (y :: l))) as [[_ ->]|[_ ->]];
        [left; reflexivity | right; exact Hin].
    + constructor; [lia|].
      eapply Forall_impl; [exact Hall|]. cbn. intros; lia.
Qed.

(** *** The counters stay in the range of their type *)

Lemma step_offsets_inv qLen c o c' :
  count_inv qLen c -> offsets_inv qLen c -> step c o = Ret c' ->
  offsets_inv qLen c'.
Proof.
  unfold count_inv, offsets_inv, queued_count.
  intros (Hend & Hcnt & Hfront) [Hhead Htail] Hstep.
  assert (Hne : forall f, m_frontEvt (queue c) = Some f ->
                          1 <= length (queued c)).
  { intros f Hf. destruct (queued c); [|cbn; lia].
    rewrite (Hfront eq_refl) in Hf. discriminate. }
  destruct o as [e margin qs_id | e qs_id | qs_id]; cbn [step] in Hstep.
  - destruct (post (queue c) e margin qs_id) as [[[] q']|] eqn:Hp;
      simplify_eq; unfold post in Hp;
      destruct (m_nFree (queue c) <=? margin) eqn:Hm;
      try (destruct (margin =? 0); simplify_eq; cbn; auto; fail);
      to_lia;
      destruct (m_frontEvt (queue c)) as [f|] eqn:Hf; simplify_eq;
      cbn [queue m_head m_tail]; try (split; assumption).
    specialize (Hne f eq_refl). split; [|exact Htail].
    unfold ring_next. destruct (S (m_head (queue c)) =? m_end (queue c)) eqn:E;
      to_lia; lia.
  - destruct (postLIFO (queue c) e qs_id) as [q'|] eqn:Hp;
      simplify_eq; unfold postLIFO in Hp;
      destruct (m_nFree (queue c) =? 0) eqn:Hm; [discriminate|];
      to_lia;
      destruct (m_frontEvt (queue c)) as [f|] eqn:Hf; simplify_eq;
      cbn [queue m_head m_tail]; try (split; assumption).
    specialize (Hne f eq_refl). split; [exact Hhead|].
    unfold ring_prev. destruct (m_tail (queue c) =? 0); lia.
  - destruct (get (queue c) qs_id) as [r q'] eqn:Hg.
    assert (Hq' : m_head q' <= m_end (queue c) - 1
                  /\ m_tail q' <= m_end (queue c) - 1).
    { unfold get in Hg.
      destruct (m_frontEvt (queue c)) as [f|]; [|simplify_eq; auto].
      destruct (m_nFree (queue c) <? m_end (queue c)) eqn:E; to_lia;
        simplify_eq; cbn [m_head m_tail]; [|auto].
      split; [exact Hhead|].
      unfold ring_next.
      destruct (S (m_tail (queue c)) =? m_end (queue c)) eqn:E';
        to_lia; lia. }
    destruct r; simplify_eq; exact Hq'.
Qed.

Lemma run_offsets_inv qLen ops :
  forall c c', count_inv qLen c -> offsets_inv qLen c ->
               run c ops = Ret c' -> offsets_inv qLen c'.
Proof.
  induction ops as [|o ops IH]; intros c c' Hcnt Hoff Hrun;
    cbn [run] in Hrun.
  - now simplify_eq.
  - destruct (step c o) as [c1|] eqn:Hstep; [|discriminate].
    eapply IH; [| |exact Hrun].
    + eapply step_count_inv; eassumption.
    + eapply step_offsets_inv; eassumption.
Qed.

Lemma run_fits (size : nat) (qSto : list (option QEvt)) (qLen : nat)
  ops c :
  qLen + 1 <= QEQueueCtr_limit size ->
  run (start qSto qLen) ops = Ret c ->
  fits size (queue c).
Proof.
  intros Hmax Hrun.
  pose proof (run_count_inv qLen ops _ _ (start_count_inv qSto qLen) Hrun)
    as (Hend & Hcnt & _).
  assert (Hoff0 : offsets_inv qLen (start qSto qLen))
    by (unfold offsets_inv; cbn; lia).
  pose proof (run_offsets_inv qLen ops _ _ (start_count_inv qSto qLen)
                Hoff0 Hrun) as [Hhead Htail].
  destruct (run_log_inv ops _ _ (start_log_inv qSto qLen) Hrun)
    as [_ Hmin].
  cbn [start queue init m_nMin] in Hmin.
  unfold fits. repeat split; lia.
Qed.

(** ** The claims about the queue *)

(** C1: [post] returns false exactly when [n_free <= margin] with
    [margin > 0] (leaving the queue as it was) and succeeds exactly when
    [n_free > margin]; with [margin == 0] and no free entry it ends in the
    fatal assertion instead of returning false.  A queue that holds three
    events in all ([qLen = 2] plus the front slot), posted to with margin
    1, accepts the first two posts and returns false for the third. *)
Theorem post_margin q e (margin qs_id : nat)
  (qSto : list (option QEvt)) (e1 e2 e3 : QEvt) :
  ((exists q', post q e margin qs_id = Ret (false, q'))
     <-> 0 < margin /\ m_nFree q <= margin)
  /\ (post q e margin qs_id = Ret (false, q)
      <-> 0 < margin /\ m_nFree q <= margin)
  /\ ((exists q', post q e margin qs_id = Ret (true, q'))
      <-> margin < m_nFree q)
  /\ (post q e margin qs_id = Fatal <-> margin = 0 /\ m_nFree q = 0)
  /\ (exists q1 q2,
        post (init qSto 2) e1 1 qs_id = Ret (true, q1)
        /\ post q1 e2 1 qs_id = Ret (true, q2)
        /\ post q2 e3 1 qs_id = Ret (false, q2)).
Proof.
  assert (Hcases :
            (0 < margin /\ m_nFree q <= margin
             /\ post q e margin qs_id = Ret (false, q))
            \/ (margin < m_nFree q
                /\ exists q', post q e margin qs_id = Ret (true, q'))
            \/ (margin = 0 /\ m_nFree q = 0
                /\ post q e margin qs_id = Fatal)).
  { destruct (Nat.le_gt_cases (m_nFree q) margin) as [Hle|Hgt].
    - destruct (Nat.eq_0_gt_0_cases margin) as [->|Hpos].
      + right. right. assert (m_nFree q = 0) by lia.
        auto using post_fatal.
      + left. auto using post_refused.
    - right. left. split; [exact Hgt|].
      destruct (post_accepted q e margin qs_id Hgt) as (q' & Hp & _).
      eauto. }
  assert (Hexcl : forall r, post q e margin qs_id = r ->
            match r with
            | Ret (false, q') => q' = q /\ 0 < margin /\ m_nFree q <= margin
            | Ret (true, _) => margin < m_nFree q
            | Fatal => margin = 0 /\ m_nFree q = 0
            end).
  { intros r Hr.
    destruct Hcases as [(?&?&H)|[(?&q''&H)|(?&?&H)]];
      rewrite H in Hr; subst r; auto. }
  split; [|split; [|split; [|split]]].
  - split.
    + intros [q' Hp]. apply Hexcl in Hp. tauto.
    + intros [Hm Hn]. exists q. now apply post_refused.
  - split.
    + intros Hp. apply Hexcl in Hp. tauto.
    + intros [Hm Hn]. now apply post_refused.
  - split.
    + intros [q' Hp]. now apply Hexcl in Hp.
    + intros Hn.
      destruct (post_accepted q e margin qs_id Hn) as (q' & Hp & _). eauto.
  - split.
    + intros Hp. now apply Hexcl in Hp.
    + intros [-> Hn]. now apply post_fatal.
  - eexists. eexists. repeat split; reflexivity.
Qed.

(** With a ring of three slots the queue holds four events, and with
    margin 1 it is the fourth post that is refused. *)
Remark post_margin_ring_of_three (qSto : list (option QEvt))
  (e1 e2 e3 e4 : QEvt) (qs_id : nat) :
  exists q1 q2 q3,
    post (init qSto 3) e1 1 qs_id = Ret (true, q1)
    /\ post q1 e2 1 qs_id = Ret (true, q2)
    /\ post q2 e3 1 qs_id = Ret (true, q3)
    /\ post q3 e4 1 qs_id = Ret (false, q3).
Proof. do 3 eexists. repeat split; reflexivity. Qed.

(** C4, as the counters allow it: for a ring whose length plus one is
    in the range of the counter type [QEQueueCtr], in every state reached
    from [init(qSto, qLen)] by posts, LIFO posts and gets,
    [n_free + queued_count = qLen + 1] and every counter is in the range
    of its type; every further operation keeps both; the queue never
    holds more than [qLen + 1] events and [qLen + 1] posts fill it
    exactly, after which a post with margin 0 is fatal. *)
Theorem nfree_plus_queued (size : nat) (qSto : list (option QEvt))
  (qLen : nat) ops c e
  (Hctr : qLen + 1 <= QEQueueCtr_limit size)
  (Hrun : run (start qSto qLen) ops = Ret c) :
  getNFree (queue c) + queued_count c = qLen + 1
  /\ queued_count c <= qLen + 1
  /\ fits size (queue c)
  /\ (forall o c', step c o = Ret c' ->
                   getNFree (queue c') + queued_count c' = qLen + 1
                   /\ fits size (queue c'))
  /\ (exists cf,
        run (start qSto qLen) (repeat (OpPost e 0 0) (qLen + 1)) = Ret cf
        /\ queued_count cf = qLen + 1
        /\ getNFree (queue cf) = 0
        /\ fits size (queue cf)
        /\ post (queue cf) e 0 0 = Fatal).
Proof.
  pose proof (run_count_inv qLen ops _ _ (start_count_inv qSto qLen) Hrun)
    as Hinv.
  unfold getNFree. split; [apply Hinv|]. split; [destruct Hinv as (_&?&_); lia|].
  split; [eapply run_fits; eassumption|].
  split.
  - intros o c' Hstep. split.
    + eapply step_count_inv; eassumption.
    + apply (run_fits size qSto qLen (ops ++ [o])); [exact Hctr|].
      clear Hinv. revert Hrun. generalize (start qSto qLen).
      induction ops as [|o1 ops IH]; intros c0 Hrun; cbn [run app] in *.
      * simplify_eq. now rewrite Hstep.
      * destruct (step c0 o1); [now apply IH | discriminate].
  - destruct (fill_up e (qLen + 1) (start qSto qLen) eq_refl)
      as (cf & Hfill & H0 & Hc).
    exists cf. split; [exact Hfill|]. split; [exact Hc|].
    split; [exact H0|].
    split; [eapply run_fits; eassumption | now apply post_fatal].
Qed.

(** C8: over every sequence of operations after [init] the low-watermark
    never goes up, and at every point [getNMin()] is the smallest value
    that [n_free] has taken since [init]: it is one of the logged values
    and no logged value is below it. *)
Theorem nmin_low_watermark (qSto : list (option QEvt)) (qLen : nat)
  ops1 ops2 c1 c2
  (Hrun1 : run (start qSto qLen) ops1 = Ret c1)
  (Hrun2 : run c1 ops2 = Ret c2) :
  getNMin (queue c2) <= getNMin (queue c1)
  /\ getNMin (queue c2) = lowest (nfree_log c2)
  /\ In (getNMin (queue c2)) (nfree_log c2)
  /\ Forall (fun n => getNMin (queue c2) <= n) (nfree_log c2)
  /\ head (nfree_log c2) = Some (getNFree (queue c2)).
Proof.
  destruct (run_log_inv ops1 _ _ (start_log_inv qSto qLen) Hrun1)
    as [Hinv1 _].
  destruct (run_log_inv ops2 _ _ Hinv1 Hrun2) as [[[l Hl] Hmin] Hle].
  unfold getNMin, getNFree. split; [exact Hle|]. split; [exact Hmin|].
  rewrite Hmin.
  destruct (lowest_min (nfree_log c2)) as [Hin Hall];
    [rewrite Hl; discriminate|].
  split; [exact Hin|]. split; [exact Hall|].
  rewrite Hl. reflexivity.
Qed.

(** C5: in every state reached from [init(qSto, qLen)], with [qSto] an
    array of [qLen] slots, the queue is empty exactly when the front slot
    is null, which is what [isEmpty()] tests; the front slot holds the
    first of the queued events, and that is the event [get()] returns.
    Every operation keeps this, as it holds after every run. *)
Theorem front_is_next (qSto : list (option QEvt)) (qLen : nat)
  ops c (qs_id : nat)
  (Hsto : length qSto = qLen)
  (Hrun : run (start qSto qLen) ops = Ret c) :
  (isEmpty (queue c) = true <-> m_frontEvt (queue c) = None)
  /\ (isEmpty (queue c) = true <-> queued c = [])
  /\ m_frontEvt (queue c) = head (queued c)
  /\ fst (get (queue c) qs_id) = m_frontEvt (queue c)
  /\ (forall o c', step c o = Ret c' ->
        m_frontEvt (queue c') = head (queued c')
        /\ fst (get (queue c') qs_id) = m_frontEvt (queue c')).
Proof.
  pose proof (run_ring_inv qLen ops _ _ (start_ring_inv qSto qLen Hsto) Hrun)
    as Hinv.
  assert (Hget : forall q, fst (get q qs_id) = m_frontEvt q).
  { intros q. unfold get. destruct (m_frontEvt q); [|reflexivity].
    destruct (m_nFree q <? m_end q); reflexivity. }
  pose proof Hinv as (_ & _ & _ & Hfront & _).
  split; [|split; [|split; [exact Hfront|split; [apply Hget|]]]].
  - unfold isEmpty. destruct (m_frontEvt (queue c)); split; congruence.
  - unfold isEmpty. rewrite Hfront.
    destruct (queued c); cbn; split; congruence.
  - intros o c' Hstep. split; [|apply Hget].
    apply (step_ring_inv qLen c o c' Hinv Hstep).
Qed.

(** C3, as the model has it: in every reached state with at least one
    free entry, [postLIFO(e)] returns and the [get()] after it returns
    [e]; a front event [f] that was there is moved into the ring at the
    decremented tail offset and is the front event again after the [get];
    an empty queue is empty again.  The queued events are as before. *)
Theorem postLIFO_then_get (qSto : list (option QEvt)) (qLen : nat)
  ops c e (id1 id2 : nat)
  (Hsto : length qSto = qLen)
  (Hrun : run (start qSto qLen) ops = Ret c)
  (Hfree : 0 < m_nFree (queue c)) :
  exists q1 c2,
    postLIFO (queue c) e id1 = Ret q1
    /\ fst (get q1 id2) = Some e
    /\ run c [OpPostLIFO e id1; OpGet id2] = Ret c2
    /\ queue c2 = snd (get q1 id2)
    /\ queued c2 = queued c
    /\ m_frontEvt (queue c2) = m_frontEvt (queue c)
    /\ m_nFree (queue c2) = m_nFree (queue c)
    /\ (forall f, m_frontEvt (queue c) = Some f ->
          m_tail q1 = ring_prev (queue c) (m_tail (queue c))
          /\ ring_at q1 (m_tail q1) = Some f).
Proof.
  pose proof (run_ring_inv qLen ops _ _ (start_ring_inv qSto qLen Hsto) Hrun)
    as Hinv.
  destruct (postLIFO (queue c) e id1) as [q1|] eqn:Hp;
    [|unfold postLIFO in Hp; destruct (m_nFree (queue c) =? 0) eqn:E;
      to_lia; [lia|]; destruct (m_frontEvt (queue c)); discriminate].
  assert (Hstep1 : step c (OpPostLIFO e id1) =
                   Ret {| queue := q1; queued := e :: queued c;
                          nfree_log := m_nFree q1 :: nfree_log c |})
    by (cbn [step]; now rewrite Hp).
  pose proof (step_ring_inv _ _ _ _ Hinv Hstep1) as Hinv1.
  destruct Hinv1 as (Hend1 & Hlen1 & Hcnt1 & Hfront1 & Htail1 & _ & Hslots1).
  cbn [queue queued head tail] in *.
  assert (Hget : exists q2, get q1 id2 = (Some e, q2)).
  { unfold get. rewrite Hfront1.
    destruct (m_nFree q1 <? m_end q1); eauto. }
  destruct Hget as [q2 Hg].
  assert (Hstep2 : step {| queue := q1; queued := e :: queued c;
                            nfree_log := m_nFree q1 :: nfree_log c |}
                        (OpGet id2) =
                   Ret {| queue := q2; queued := queued c;
                          nfree_log := m_nFree q2 :: m_nFree q1
                                       :: nfree_log c |})
    by (cbn [step queue queued nfree_log]; now rewrite Hg).
  pose proof (step_ring_inv _ _ _ _
                (step_ring_inv _ _ _ _ Hinv Hstep1) Hstep2) as Hinv2.
  destruct Hinv2 as (_ & _ & Hcnt2 & Hfront2 & _).
  destruct Hinv as (Hend & Hlen & Hcnt & Hfront & Htail & _ & _).
  unfold queued_count in *. cbn [queue queued length] in *.
  exists q1. eexists. rewrite Hg. cbn [fst snd].
  split; [reflexivity|]. split; [reflexivity|].
  split; [cbn [run]; rewrite Hstep1, Hstep2; reflexivity|].
  cbn [queue queued].
  split; [reflexivity|]. split; [reflexivity|].
  split; [congruence|]. split; [lia|].
  intros f Hf.
  assert (Ht : m_tail q1 = ring_prev (queue c) (m_tail (queue c))).
  { unfold postLIFO in Hp. destruct (m_nFree (queue c) =? 0); [discriminate|].
    rewrite Hf in Hp. now simplify_eq. }
  split; [exact Ht|].
  rewrite Hfront in Hf.
  destruct (queued c) as [|f' rest] eqn:Hq; cbn [head] in Hf; simplify_eq.
  cbn [length] in *.
  pose proof (Hslots1 0 f eq_refl) as H0.
  rewrite slot_0 in H0 by lia.
  unfold ring_at. now rewrite H0.
Qed.

End QueueFacts.

(** Witnesses and counterexamples over a queue of numbered events. *)

Section QueueExamples.

Import QEQueue.

Lemma nfree_plus_queued_witness :
  let c : config nat :=
    {| queue := {| m_frontEvt := Some 7; m_ring := [None; Some 7];
                   m_end := 2; m_head := 0; m_tail := 0;
                   m_nFree := 2; m_nMin := 1 |};
       queued := [7];
       nfree_log := [2; 1; 2; 3] |} in
  2 + 1 <= QEQueueCtr_limit 1
  /\ run (start [None; None] 2) [OpPost 7 0 0; OpPostLIFO 8 0; OpGet 0]
     = Ret c
  /\ getNFree (queue c) + queued_count c = 2 + 1.
Proof.
  intros c.
  assert (Hctr : 2 + 1 <= QEQueueCtr_limit 1) by (vm_compute; lia).
  split; [exact Hctr|]. split; [reflexivity|].
  exact (proj1 (nfree_plus_queued 1 [None; None] 2
                  [OpPost 7 0 0; OpPostLIFO 8 0; OpGet 0] c 7
                  Hctr eq_refl)).
Defined.

(** C4, counterexample: a ring of 255 slots with the default one-byte
    counters.  The equation asks for [n_free = 256] right after [init],
    which no counter of that type can hold. *)
Lemma nfree_plus_queued_counterexample :
  QEQueueCtr_limit QF_EQUEUE_CTR_SIZE = 255
  /\ queued_count (start (replicate 255 (@None nat)) 255) = 0
  /\ ~ (exists n_free : nat,
          n_free <= QEQueueCtr_limit QF_EQUEUE_CTR_SIZE
          /\ n_free + queued_count (start (replicate 255 (@None nat)) 255)
             = 255 + 1)
  /\ ~ fits QF_EQUEUE_CTR_SIZE
          (queue (start (replicate 255 (@None nat)) 255)).
Proof.
  assert (Hlim : QEQueueCtr_limit QF_EQUEUE_CTR_SIZE = 255) by reflexivity.
  split; [exact Hlim|]. split; [reflexivity|]. split.
  - intros (n & Hn & Heq). rewrite Hlim in Hn.
    unfold queued_count in Heq. cbn [start queued length] in Heq. lia.
  - unfold fits. rewrite Hlim. cbn [start queue init m_nFree].
    intros (_ & _ & _ & Hfree & _). lia.
Qed.

Lemma nmin_low_watermark_witness :
  let c1 : config nat :=
    {| queue := {| m_frontEvt := Some 7; m_ring := [Some 8; None];
                   m_end := 2; m_head := 1; m_tail := 0;
                   m_nFree := 1; m_nMin := 1 |};
       queued := [7; 8];
       nfree_log := [1; 2; 3] |} in
  let c2 : config nat :=
    {| queue := {| m_frontEvt := None; m_ring := [Some 8; None];
                   m_end := 2; m_head := 1; m_tail := 1;
                   m_nFree := 3; m_nMin := 1 |};
       queued := [];
       nfree_log := [3; 2; 1; 2; 3] |} in
  run (start [None; None] 2) [OpPost 7 0 0; OpPost 8 0 0] = Ret c1
  /\ run c1 [OpGet 0; OpGet 0] = Ret c2
  /\ getNMin (queue c2) <= getNMin (queue c1)
  /\ getNMin (queue c2) = lowest (nfree_log c2).
Proof.
  intros c1 c2. split; [reflexivity|]. split; [reflexivity|].
  pose proof (nmin_low_watermark [None; None] 2
                [OpPost 7 0 0; OpPost 8 0 0] [OpGet 0; OpGet 0] c1 c2
                eq_refl eq_refl) as H.
  split; [exact (proj1 H) | exact (proj1 (proj2 H))].
Defined.

Lemma front_is_next_witness :
  let c : config nat :=
    {| queue := {| m_frontEvt := Some 8; m_ring := [Some 8; None];
                   m_end := 2; m_head := 1; m_tail := 1;
                   m_nFree := 2; m_nMin := 1 |};
       queued := [8];
       nfree_log := [2; 1; 2; 3] |} in
  run (start [None; None] 2) [OpPost 7 0 0; OpPost 8 0 0; OpGet 0] = Ret c
  /\ m_frontEvt (queue c) = head (queued c)
  /\ fst (get (queue c) 0) = m_frontEvt (queue c).
Proof.
  intros c. split; [reflexivity|].
  pose proof (front_is_next [None; None] 2
                [OpPost 7 0 0; OpPost 8 0 0; OpGet 0] c 0
                eq_refl eq_refl) as H.
  split; [exact (proj1 (proj2 (proj2 H)))
         | exact (proj1 (proj2 (proj2 (proj2 H))))].
Defined.

Lemma postLIFO_then_get_witness :
  let c : config nat :=
    {| queue := {| m_frontEvt := Some 7; m_ring := [Some 8; None];
                   m_end := 2; m_head := 1; m_tail := 0;
                   m_nFree := 1; m_nMin := 1 |};
       queued := [7; 8];
       nfree_log := [1; 2; 3] |} in
  run (start [None; None] 2) [OpPost 7 0 0; OpPost 8 0 0] = Ret c
  /\ exists q1, postLIFO (queue c) 9 0 = Ret q1 /\ fst (get q1 0) = Some 9.
Proof.
  intros c. split; [reflexivity|].
  destruct (postLIFO_then_get [None; None] 2
              [OpPost 7 0 0; OpPost 8 0 0] c 9 0 0
              eq_refl eq_refl (Nat.lt_0_succ 0))
    as (q1 & c2 & Hp & Hg & _).
  exists q1. split; [exact Hp | exact Hg].
Defined.

(** C3, counterexample: a queue with one ring slot that holds two events
    is full; [postLIFO] then ends in the fatal assertion, so the sequence
    [postLIFO(e)], [get()] returns nothing. *)
Lemma postLIFO_full_counterexample :
  exists c : config nat,
    run (start [None] 1) [OpPost 1 0 0; OpPost 2 0 0] = Ret c
    /\ queued c = [1; 2]
    /\ m_nFree (queue c) = 0
    /\ postLIFO (queue c) 3 0 = Fatal
    /\ run c [OpPostLIFO 3 0; OpGet 0] = Fatal.
Proof. eexists. repeat split; reflexivity. Qed.

End QueueExamples.

(* ====================================================================== *)
(** * Properties of the button debouncing and of the QS time stamp *)
(* ====================================================================== *)

Section SysTickFacts.

Import SysTick.
Local Open Scope Z_scope.

(** Equations between bitwise expressions, bit by bit. *)
Ltac bitwise :=
  apply Z.bits_inj'; intros n _;
  repeat rewrite ?Z.land_spec, ?Z.lor_spec, ?Z.lxor_spec;
  repeat match goal with
         | |- context [Z.testbit ?a n] =>
             let b := fresh "b" in
             generalize (Z.testbit a n); intros b
         end;
  repeat match goal with b : bool |- _ => destruct b end; reflexivity.

Lemma debounce_two_of_three (d p c : Z) :
  (d = p -> Z.land (Z.lor d (Z.land p c)) (Z.lor p c) = d)
  /\ (d = c -> Z.land (Z.lor d (Z.land p c)) (Z.lor p c) = d)
  /\ (p = c -> Z.land (Z.lor d (Z.land p c)) (Z.lor p c) = c).
Proof. repeat split; intros ->; bitwise. Qed.

(** X1: every bit of the debounced state becomes the majority of its
    old value and the last two samples of that button. *)
Theorem debounce_majority (buttons : ButtonsDebouncing) (current : Z)
  (n : Z) :
  Z.testbit (depressed (fst (debounce buttons current))) n
  = majority (Z.testbit (depressed buttons) n)
             (Z.testbit (previous buttons) n)
             (Z.testbit current n)
  /\ previous (fst (debounce buttons current)) = current.
Proof.
  split; [|reflexivity].
  cbn [debounce fst depressed].
  rewrite Z.land_spec, !Z.lor_spec, Z.land_spec. unfold majority.
  destruct (Z.testbit (depressed buttons) n),
           (Z.testbit (previous buttons) n),
           (Z.testbit current n); reflexivity.
Qed.

(** X2: whatever the state was, two activations in a row that read the
    same sample leave exactly that sample as the debounced state. *)
Theorem debounce_settles (buttons : ButtonsDebouncing) (current : Z) :
  fst (debounce_all buttons [current; current])
  = {| depressed := current; previous := current |}.
Proof.
  cbn [debounce_all debounce fst depressed previous].
  f_equal. bitwise.
Qed.

(** X3: a sample that deviates for one activation only is filtered out:
    from a settled state [v], the samples [c] and then [v] again publish
    nothing and leave the state settled at [v]. *)
Theorem debounce_ignores_glitch (v c : Z) :
  debounce_all {| depressed := v; previous := v |} [c; v]
  = ({| depressed := v; previous := v |}, [None; None]).
Proof.
  cbn [debounce_all debounce fst depressed previous].
  destruct (debounce_two_of_three v v c) as [H1 _].
  destruct (debounce_two_of_three v c v) as [_ [H2 _]].
  rewrite (H1 eq_refl), (H2 eq_refl), Z.lxor_nilpotent. reflexivity.
Qed.

(** X4: an event is published exactly when the debounced state changes:
    [PAUSE_SIG] when the new state has a button down, [SERVE_SIG] when it
    has none. *)
Theorem debounce_publishes_changes (buttons : ButtonsDebouncing)
  (current : Z) :
  let d := depressed buttons in
  let d' := depressed (fst (debounce buttons current)) in
  let ev := snd (debounce buttons current) in
  (ev = None <-> d' = d)
  /\ (ev = Some PAUSE_SIG <-> d' <> d /\ d' <> 0)
  /\ (ev = Some SERVE_SIG <-> d' <> d /\ d' = 0).
Proof.
  cbn [debounce fst snd depressed].
  set (d := depressed buttons).
  set (d' := Z.land _ _).
  destruct (Z.lxor d d' =? 0) eqn:Hx; cbn [negb].
  - apply Z.eqb_eq, Z.lxor_eq in Hx. rewrite <- Hx.
    repeat split; try congruence; try tauto; intros H; try discriminate;
      destruct H; congruence.
  - apply Z.eqb_neq in Hx.
    assert (Hne : d' <> d).
    { intros ->. apply Hx, Z.lxor_nilpotent. }
    destruct (d' =? 0) eqn:H0; cbn [negb].
    + apply Z.eqb_eq in H0.
      repeat split; try congruence; try tauto; intros H; try discriminate;
        destruct H; congruence.
    + apply Z.eqb_neq in H0.
      repeat split; try congruence; try tauto; intros H; try discriminate;
        destruct H; congruence.
Qed.

(** X5: the time stamp does not jump when the tick interrupt is served.
    With the rollover flagged and the interrupt still pending,
    [QS::onGetTime()] returns what it returns once the handler has added
    the period, which is the unflagged reading plus one period. *)
Theorem onGetTime_across_rollover (TIME_MOD : Z) (k : tick_clock)
  (Hflag : countflag k = true) :
  fst (onGetTime TIME_MOD k)
  = fst (onGetTime TIME_MOD (SysTick_Handler_time TIME_MOD k))
  /\ fst (onGetTime TIME_MOD k)
     = QSTimeCtr TIME_MOD
         (fst (onGetTime TIME_MOD
                 {| QS_tickTime_ := QS_tickTime_ k;
                    QS_tickPeriod_ := QS_tickPeriod_ k;
                    countflag := false;
                    val := val k |})
          + QS_tickPeriod_ k)
  /\ countflag (snd (onGetTime TIME_MOD k)) = false.
Proof.
  unfold onGetTime, SysTick_Handler_time, QSTimeCtr.
  rewrite Hflag. cbn [negb fst snd QS_tickTime_ QS_tickPeriod_ countflag val].
  split; [reflexivity|]. split; [|reflexivity].
  rewrite Zminus_mod_idemp_l, Zplus_mod_idemp_l.
  f_equal. lia.
Qed.

Lemma onGetTime_across_rollover_witness :
  fst (onGetTime (2 ^ 32)
         {| QS_tickTime_ := 2 ^ 32 - 100; QS_tickPeriod_ := 216000;
            countflag := true; val := 215000 |})
  = 900.
Proof.
  rewrite (proj1 (onGetTime_across_rollover (2 ^ 32)
                    {| QS_tickTime_ := 2 ^ 32 - 100;
                       QS_tickPeriod_ := 216000;
                       countflag := true; val := 215000 |} eq_refl)).
  reflexivity.
Defined.

End SysTickFacts.

(* ====================================================================== *)
(** * Further properties of the pseudo-random generator *)
(* ====================================================================== *)

Section RandomMoreFacts.

Import BSP.
Local Open Scope Z_scope.

Lemma LCG_INVERSE_ok : (69069 * LCG_INVERSE) mod 2 ^ 32 = 1.
Proof. reflexivity. Qed.

Lemma lcg_step_back (s : Z) :
  0 <= s < 2 ^ 32 ->
  (((s * 69069) mod 2 ^ 32) * LCG_INVERSE) mod 2 ^ 32 = s.
Proof.
  intros Hs.
  rewrite Z.mul_mod_idemp_l by lia.
  rewrite <- Z.mul_assoc, <- Z.mul_mod_idemp_r by lia.
  rewrite LCG_INVERSE_ok, Z.mul_1_r. apply Z.mod_small. exact Hs.
Qed.

Lemma random_seed_after (st : bsp_state) :
  l_rnd (snd (random st)) = (l_rnd st * 69069) mod 2 ^ 32.
Proof. now rewrite random_unfold. Qed.

Lemma random_calls_S (n : nat) (st : bsp_state) :
  random_calls (S n) st =
  (fst (random st) :: fst (random_calls n (snd (random st))),
   snd (random_calls n (snd (random st)))).
Proof.
  cbn [random_calls]. destruct (random st) as [r st'].
  cbn [fst snd]. destruct (random_calls n st') as [rs st'']. reflexivity.
Qed.

Lemma random_calls_seed_range (n : nat) :
  forall st, 0 <= l_rnd (snd (random_calls (S n) st)) < 2 ^ 32.
Proof.
  induction n as [|n IH]; intros st; rewrite random_calls_S; cbn [snd].
  - cbn [random_calls snd]. apply random_range.
  - apply IH.
Qed.

(** X6: every value that [BSP::random()] returns fits in 24 bits, and
    the seed it leaves is a [uint32_t] value, whatever was stored
    before. *)
Theorem random_values_24bit (n : nat) (st : bsp_state) :
  Forall (fun r => 0 <= r < 2 ^ 24) (fst (random_calls n st))
  /\ 0 <= l_rnd (snd (random_calls (S n) st)) < 2 ^ 32.
Proof.
  split; [|apply random_calls_seed_range].
  revert st. induction n as [|n IH]; intros st; [constructor|].
  rewrite random_calls_S. cbn [fst].
  constructor; [apply random_range | apply IH].
Qed.

(** X7: the seed update is one-to-one on [uint32_t]: two different
    stored seeds never lead to the same next seed, so the generator
    never merges two of its sequences. *)
Theorem random_seed_injective (s1 s2 : Z)
  (H1 : 0 <= s1 < 2 ^ 32) (H2 : 0 <= s2 < 2 ^ 32)
  (Hnext : l_rnd (snd (random {| l_rnd := s1 |}))
           = l_rnd (snd (random {| l_rnd := s2 |}))) :
  s1 = s2.
Proof.
  rewrite !random_seed_after in Hnext. cbn [l_rnd] in Hnext.
  rewrite <- (lcg_step_back s1 H1), <- (lcg_step_back s2 H2).
  now rewrite Hnext.
Qed.

Lemma random_seed_injective_witness :
  l_rnd (snd (random {| l_rnd := 1234 |})) = 85231146
  /\ 1234 = 1234.
Proof.
  split; [reflexivity|].
  apply (random_seed_injective 1234 1234); [lia | lia | reflexivity].
Defined.

Lemma random_zero_iff (st : bsp_state) :
  0 <= l_rnd st < 2 ^ 32 ->
  (l_rnd (snd (random st)) = 0 <-> l_rnd st = 0).
Proof.
  intros Hs. rewrite random_seed_after. split.
  - intros H0. rewrite <- (lcg_step_back (l_rnd st) Hs), H0. reflexivity.
  - intros ->. reflexivity.
Qed.

(** X8: after [randomSeed(0)] every call returns 0, and after seeding
    with a [uint32_t] value other than 0 the stored seed is never 0,
    however many calls are made. *)
Theorem random_zero_seed (n : nat) (st : bsp_state) (s : Z)
  (Hs : 0 < s < 2 ^ 32) :
  fst (random_calls n (randomSeed 0 st)) = repeat 0 n
  /\ l_rnd (snd (random_calls n (randomSeed s st))) <> 0.
Proof.
  split.
  - rewrite random_calls_lcg. cbn [randomSeed l_rnd]. clear.
    induction n as [|n IH]; [reflexivity|].
    cbn [lcg_values repeat].
    change ((0 * 69069) mod 2 ^ 32) with 0.
    change (Z.shiftr 0 8) with 0. now rewrite IH.
  - unfold randomSeed.
    assert (Hst : forall st0 : bsp_state,
               0 < l_rnd st0 < 2 ^ 32 ->
               l_rnd (snd (random_calls n st0)) <> 0).
    { clear. induction n as [|n IH]; intros st0 H0.
      - cbn. lia.
      - rewrite random_calls_S. cbn [snd]. apply IH.
        pose proof (random_range st0) as [Hr _].
        pose proof (random_zero_iff st0 ltac:(lia)) as Hz.
        assert (l_rnd (snd (random st0)) <> 0) by (rewrite Hz; lia).
        lia. }
    apply (Hst {| l_rnd := s |}). exact Hs.
Qed.

Lemma random_zero_seed_witness :
  fst (random_calls 3 (randomSeed 0 {| l_rnd := 7 |})) = [0; 0; 0]
  /\ l_rnd (snd (random_calls 3 (randomSeed 1234 {| l_rnd := 7 |}))) <> 0.
Proof.
  exact (random_zero_seed 3 {| l_rnd := 7 |} 1234 ltac:(lia)).
Defined.

End RandomMoreFacts.

(* ====================================================================== *)
(** * Properties of the UART flush *)
(* ====================================================================== *)

Section UartFlushFacts.

Import UartFlush.
Local Open Scope Z_scope.

Context {QS_state : Type}.
Variable getByte : QS_state -> Z * QS_state.
Variable QS_EOD : Z.

Lemma annotate_app (off : bool) (tr1 tr2 : list event) :
  annotate off (tr1 ++ tr2)
  = annotate off tr1 ++ annotate (int_after off tr1) tr2.
Proof.
  revert off. induction tr1 as [|e tr1 IH]; intros off; [reflexivity|].
  cbn [app annotate int_after]. now rewrite IH.
Qed.

Lemma int_after_app (off : bool) (tr1 tr2 : list event) :
  int_after off (tr1 ++ tr2) = int_after (int_after off tr1) tr2.
Proof.
  revert off. induction tr1 as [|e tr1 IH]; intros off; [reflexivity|].
  cbn [app int_after]. now rewrite IH.
Qed.

Lemma written_app (tr1 tr2 : list event) :
  written (tr1 ++ tr2) = written tr1 ++ written tr2.
Proof. apply omap_app. Qed.

(** The loop, entered with interrupts disabled. *)
Lemma onFlush_loop_spec (fuel : nat) :
  forall qs : QS_state,
    let '(tr, qs', finished) := onFlush_loop getByte QS_EOD fuel qs in
    forallb disciplined (annotate true tr) = true
    /\ int_after true tr = true
    /\ written tr
       = map (fun b => Z.land b 0xFF) (pending getByte QS_EOD fuel qs)
    /\ (finished = true -> exists qs0, getByte qs0 = (QS_EOD, qs')).
Proof.
  induction fuel as [|fuel IH]; intros qs.
  - cbn. repeat split; auto. discriminate.
  - cbn [onFlush_loop pending].
    destruct (getByte qs) as [b qs1] eqn:Hget.
    destruct (b =? QS_EOD) eqn:Heod; cbn [negb].
    + apply Z.eqb_eq in Heod. subst b.
      cbn. repeat split; auto. intros _. eauto.
    + specialize (IH qs1).
      destruct (onFlush_loop getByte QS_EOD fuel qs1) as [[tr qs2] fin].
      destruct IH as (Hd & Hi & Hw & Hf).
      cbn [annotate int_after forallb disciplined negb andb written omap].
      split; [exact Hd|]. split; [exact Hi|].
      split; [|exact Hf].
      unfold written in *. cbn [omap list_omap map]. now rewrite Hw.
Qed.


End UartFlushFacts.

(* ====================================================================== *)
(** * Properties of the TCP link of the QUTest port *)
(* ====================================================================== *)

Section SocketFacts.

Import QUTestSocket.

Variable WSAEWOULDBLOCK : Z.

Lemma accepted_app (c1 c2 : list call) :
  accepted (c1 ++ c2) = accepted c1 ++ accepted c2.
Proof.
  induction c1 as [|c c1 IH]; [reflexivity|].
  destruct c as [offered [err|n] | | ]; cbn [app accepted]; rewrite IH;
    try reflexivity.
  now rewrite app_assoc.
Qed.

Lemma take_split (n m : nat) (l : list Z) :
  (n <= m)%nat -> take m l = take n l ++ take (m - n) (drop n l).
Proof.
  intros Hle. rewrite take_take_drop. f_equal. lia.
Qed.

(** The for-ever loop hands the bytes of the block to the socket once
    and in order. *)
Lemma send_loop_spec (answers : list send_ret) :
  forall (data : list Z) (nBytes : nat),
    let '(e, calls, _) := send_loop WSAEWOULDBLOCK answers data nBytes in
    accepted calls `prefix_of` take nBytes data
    /\ (e = Break -> accepted calls = take nBytes data).
Proof.
  induction answers as [|r answers IH]; intros data nBytes.
  - cbn. split; [apply prefix_nil | discriminate].
  - cbn [send_loop]. destruct r as [err|n].
    + destruct (err =? WSAEWOULDBLOCK)%Z.
      * specialize (IH data nBytes).
        destruct (send_loop WSAEWOULDBLOCK answers data nBytes)
          as [[e calls] unused].
        exact IH.
      * cbn. split; [apply prefix_nil | discriminate].
    + destruct (n <? nBytes) eqn:Hn.
      * apply Nat.ltb_lt in Hn.
        specialize (IH (drop n data) (nBytes - n)).
        destruct (send_loop WSAEWOULDBLOCK answers (drop n data)
                            (nBytes - n)) as [[e calls] unused].
        destruct IH as [Hpre Hall].
        cbn [accepted].
        rewrite take_take, Nat.min_l by lia.
        rewrite (take_split n nBytes data) by lia.
        split; [now apply prefix_app|].
        intros He. now rewrite (Hall He).
      * apply Nat.ltb_ge in Hn. cbn [accepted].
        rewrite app_nil_r, take_ge by (rewrite length_take; lia).
        split; [reflexivity | reflexivity].
Qed.

Lemma rets_app (c1 c2 : list call) :
  rets (c1 ++ c2) = rets c1 ++ rets c2.
Proof.
  induction c1 as [|c c1 IH]; [reflexivity|].
  destruct c; cbn [app rets]; rewrite IH; reflexivity.
Qed.

(** Every call of [send()] uses up one answer; the loop is left by
    [return] only after an error other than [WSAEWOULDBLOCK], and it is
    still going round only when the answers are used up. *)
Lemma send_loop_account (answers : list send_ret) :
  forall (data : list Z) (nBytes : nat),
    let '(e, calls, unused) := send_loop WSAEWOULDBLOCK answers data nBytes in
    rets calls ++ unused = answers
    /\ (e = Retrying -> unused = [])
    /\ (e = Return ->
        exists pre offered err,
          err <> WSAEWOULDBLOCK
          /\ calls = pre ++ [Send offered (SOCKET_ERROR err); PrintError]).
Proof.
  induction answers as [|r answers IH]; intros data nBytes.
  - cbn. repeat split; auto; discriminate.
  - cbn [send_loop]. destruct r as [err|n].
    + destruct (err =? WSAEWOULDBLOCK)%Z eqn:Herr.
      * specialize (IH data nBytes).
        destruct (send_loop WSAEWOULDBLOCK answers data nBytes)
          as [[e calls] unused].
        destruct IH as (Hacc & Hretry & Hret). cbn [rets app].
        split; [now rewrite Hacc|]. split; [exact Hretry|].
        intros He. destruct (Hret He) as (pre & offered & err' & Hne & ->).
        exists (Send (take nBytes data) (SOCKET_ERROR err) :: Sleep :: pre),
               offered, err'.
        split; [exact Hne | reflexivity].
      * apply Z.eqb_neq in Herr. cbn [rets app].
        split; [reflexivity|]. split; [discriminate|].
        intros _. exists [], (take nBytes data), err.
        split; [exact Herr | reflexivity].
    + destruct (n <? nBytes).
      * specialize (IH (drop n data) (nBytes - n)).
        destruct (send_loop WSAEWOULDBLOCK answers (drop n data)
                            (nBytes - n)) as [[e calls] unused].
        destruct IH as (Hacc & Hretry & Hret). cbn [rets app].
        split; [now rewrite Hacc|]. split; [exact Hretry|].
        intros He. destruct (Hret He) as (pre & offered & err' & Hne & ->).
        exists (Send (take nBytes data) (nSent n) :: Sleep :: pre),
               offered, err'.
        split; [exact Hne | reflexivity].
      * cbn [rets app]. split; [reflexivity|]. split; discriminate.
Qed.

Lemma flush_blocks_account (blocks : list (list Z)) :
  forall answers : list send_ret,
    let '(e, calls, _) := flush_blocks WSAEWOULDBLOCK answers blocks in
    rets calls `prefix_of` answers
    /\ (e = Retrying -> rets calls = answers)
    /\ (e = Return ->
        exists pre offered err,
          err <> WSAEWOULDBLOCK
          /\ calls = pre ++ [Send offered (SOCKET_ERROR err); PrintError]).
Proof.
  induction blocks as [|block blocks IH]; intros answers.
  - cbn. split; [apply prefix_nil|]. split; discriminate.
  - cbn [flush_blocks].
    pose proof (send_loop_account answers block (length block)) as Hs.
    destruct (send_loop WSAEWOULDBLOCK answers block (length block))
      as [[e calls] unused].
    destruct Hs as (Hacc & Hretry & Hret).
    destruct e.
    + specialize (IH unused).
      destruct (flush_blocks WSAEWOULDBLOCK unused blocks)
        as [[e' calls'] rest].
      destruct IH as (Hpre' & Hretry' & Hret').
      rewrite rets_app, <- Hacc.
      split; [now apply prefix_app|]. split.
      * intros He. now rewrite (Hretry' He).
      * intros He. destruct (Hret' He) as (pre & offered & err & Hne & ->).
        exists (calls ++ pre), offered, err.
        split; [exact Hne | now rewrite app_assoc].
    + split; [exists unused; now rewrite Hacc|].
      split; [discriminate | exact Hret].
    + split; [exists unused; now rewrite Hacc|].
      split; [|discriminate].
      intros _. rewrite <- Hacc, (Hretry eq_refl). now rewrite app_nil_r.
Qed.

(** A socket that takes every block whole is served block by block. *)
Lemma flush_blocks_takes_all (blocks : list (list Z)) :
  forall extra : list send_ret,
    flush_blocks WSAEWOULDBLOCK (takes_all blocks ++ extra) blocks
    = (Break,
       map (fun block => Send block (nSent (length block))) blocks,
       []).
Proof.
  induction blocks as [|block blocks IH]; intros extra; [reflexivity|].
  cbn [takes_all map app flush_blocks send_loop].
  rewrite Nat.ltb_irrefl, firstn_all.
  fold (takes_all blocks). rewrite IH. reflexivity.
Qed.


(** X11: the connection loop of [QS::onStartup] calls [connect()] at
    most once, for the first address that [socket()] accepts.  When that
    connect fails, the socket is closed and [l_sock] is invalid, whatever
    addresses follow in the list; they are not tried. *)
Theorem connect_loop_first_socket_only
  (i : nat) (before after : list addr) (rp : addr) (s : Z)
  (l_sock : option Z)
  (Hbefore : Forall (fun a => socket_ret a = None) before)
  (Hsock : socket_ret rp = Some s) :
  connect_loop i (before ++ rp :: after) l_sock
  = (if connect_ok rp then Some s else None,
     map Socket (seq i (length before))
     ++ [Socket (i + length before); Connect (i + length before) s]
     ++ (if connect_ok rp then [] else [CloseSocket s]))
  /\ connects (snd (connect_loop i (before ++ rp :: after) l_sock))
     = [(i + length before)%nat].
Proof.
  assert (Hrun :
    connect_loop i (before ++ rp :: after) l_sock
    = (if connect_ok rp then Some s else None,
       map Socket (seq i (length before))
       ++ [Socket (i + length before); Connect (i + length before) s]
       ++ (if connect_ok rp then [] else [CloseSocket s]))).
  { revert i l_sock.
    induction Hbefore as [|a before Ha _ IH]; intros i l_sock.
    - cbn [app connect_loop length seq map]. rewrite Hsock, Nat.add_0_r.
      destruct (connect_ok rp); reflexivity.
    - cbn [app connect_loop length seq map]. rewrite Ha, IH.
      replace (S i + length before)%nat with (i + S (length before))%nat
        by lia.
      reflexivity. }
  split; [exact Hrun|].
  rewrite Hrun. cbn [snd]. unfold connects.
  rewrite omap_app.
  assert (Hnone : forall l : list nat,
             omap (fun c => match c with
                            | Connect j _ => Some j
                            | _ => None
                            end) (map Socket l) = []).
  { induction l as [|x l IHl]; [reflexivity | exact IHl]. }
  rewrite Hnone. destruct (connect_ok rp); reflexivity.
Qed.

Lemma connect_loop_first_socket_only_witness :
  connect_loop 0
    ([{| socket_ret := None; connect_ok := true |}]
     ++ {| socket_ret := Some 5%Z; connect_ok := false |}
     :: [{| socket_ret := Some 6%Z; connect_ok := true |}]) None
  = (None, [Socket 0; Socket 1; Connect 1 5%Z; CloseSocket 5%Z]).
Proof.
  exact (proj1 (connect_loop_first_socket_only 0
                  [{| socket_ret := None; connect_ok := true |}]
                  [{| socket_ret := Some 6%Z; connect_ok := true |}]
                  {| socket_ret := Some 5%Z; connect_ok := false |} 5%Z None
                  (Forall_cons_2 _ {| socket_ret := None; connect_ok := true |} []
                     eq_refl (Forall_nil_2 _)) eq_refl)).
Defined.

(** When [socket()] accepts no address, [connect()] is never called and
    [l_sock] ends invalid (or as it was, for an empty list). *)
Lemma connect_loop_no_socket (rps : list addr) :
  forall (i : nat) (l_sock : option Z),
    Forall (fun a => socket_ret a = None) rps ->
    connect_loop i rps l_sock
    = (match rps with [] => l_sock | _ => None end,
       map Socket (seq i (length rps))).
Proof.
  induction rps as [|a rps IH]; intros i l_sock Hall; [reflexivity|].
  inversion Hall as [|? ? Ha Hrest]; subst.
  cbn [connect_loop length seq map]. rewrite Ha, (IH (S i) None Hrest).
  destruct rps; reflexivity.
Qed.

End SocketFacts.

(* ====================================================================== *)
(** * The events of the user button *)
(* ====================================================================== *)

Section ButtonEventFacts.

Import SysTick.
Local Open Scope Z_scope.

Lemma alternates_cons (a : signal) (l : list signal) :
  alternates l = true ->
  starts_with (match a with PAUSE_SIG => SERVE_SIG | SERVE_SIG => PAUSE_SIG end) l ->
  alternates (a :: l) = true.
Proof.
  destruct l as [|b l]; [reflexivity|].
  cbn [starts_with]. intros Halt ->.
  cbn [alternates] in *. rewrite Halt. destruct a; reflexivity.
Qed.

Lemma debounce_all_cons (b : ButtonsDebouncing) (c : Z) (cs : list Z) :
  snd (debounce_all b (c :: cs))
  = snd (debounce b c) :: snd (debounce_all (fst (debounce b c)) cs).
Proof.
  cbn [debounce_all]. destruct (debounce b c) as [b' ev].
  cbn [fst snd]. destruct (debounce_all b' cs). reflexivity.
Qed.

(** Once the state has one bit, the events alternate and the first of
    them is the one the state calls for. *)
Lemma one_button_alternates (samples : list Z) :
  Forall bit samples ->
  forall d p, bit d -> bit p ->
    let evs := published
                 (snd (debounce_all {| depressed := d; previous := p |}
                                    samples)) in
    alternates evs = true /\ starts_with (next_signal d) evs.
Proof.
  induction 1 as [|c samples Hc _ IH]; intros d p Hd Hp.
  - cbn. auto.
  - rewrite debounce_all_cons.
    assert (Hstep :
      exists d', bit d'
        /\ fst (debounce {| depressed := d; previous := p |} c)
           = {| depressed := d'; previous := c |}
        /\ snd (debounce {| depressed := d; previous := p |} c)
           = (if d' =? d then None else Some (next_signal d))).
    { exists (Z.land (Z.lor d (Z.land p c)) (Z.lor p c)).
      destruct Hd as [-> | ->], Hp as [-> | ->], Hc as [-> | ->];
        (split; [|split; [reflexivity|]]);
        first [ left; reflexivity | right; reflexivity | reflexivity ]. }
    destruct Hstep as (d' & Hd' & Hfst & Hsnd).
    rewrite Hfst, Hsnd. specialize (IH d' c Hd' Hc).
    cbn zeta in IH. destruct IH as [Halt Hstart].
    destruct (d' =? d) eqn:Heq.
    + apply Z.eqb_eq in Heq. subst d'. cbn [published omap list_omap id].
      split; assumption.
    + apply Z.eqb_neq in Heq. unfold published in *.
      cbn [omap list_omap id].
      split; [|reflexivity].
      apply alternates_cons; [exact Halt|].
      replace (match next_signal d with
               | PAUSE_SIG => SERVE_SIG
               | SERVE_SIG => PAUSE_SIG
               end) with (next_signal d'); [exact Hstart|].
      destruct Hd as [-> | ->], Hd' as [-> | ->];
        try reflexivity; contradiction.
Qed.

(** X12: with a button that reads 0 or 1, the handler never publishes
    the same signal twice in a row: from the initial state on,
    [PAUSE_SIG] and [SERVE_SIG] alternate. *)
Theorem button_events_alternate (samples : list Z)
  (Hbits : Forall (fun c => c = 0 \/ c = 1) samples) :
  alternates (published (snd (debounce_all buttons_init samples))) = true.
Proof.
  destruct Hbits as [|c1 samples Hc1 Hbits]; [reflexivity|].
  rewrite debounce_all_cons.
  assert (H1 : debounce buttons_init c1
               = ({| depressed := 2 ^ 32 - 1; previous := c1 |}, None))
    by (destruct Hc1 as [-> | ->]; reflexivity).
  rewrite H1. cbn [fst snd]. unfold published. cbn [omap list_omap id].
  destruct Hbits as [|c2 samples Hc2 Hbits]; [reflexivity|].
  rewrite debounce_all_cons.
  assert (H2 : exists d,
             bit d
             /\ debounce {| depressed := 2 ^ 32 - 1; previous := c1 |} c2
                = ({| depressed := d; previous := c2 |},
                   Some (match next_signal d with
                         | PAUSE_SIG => SERVE_SIG
                         | SERVE_SIG => PAUSE_SIG
                         end))).
  { exists (Z.lor c1 c2).
    destruct Hc1 as [-> | ->], Hc2 as [-> | ->];
      (split; [|reflexivity]);
      first [ left; reflexivity | right; reflexivity ]. }
  destruct H2 as (d & Hd & H2). rewrite H2. cbn [fst snd omap list_omap id].
  destruct (one_button_alternates samples Hbits d c2 Hd Hc2)
    as [Halt Hstart].
  unfold published in *.
  apply alternates_cons; [exact Halt|].
  destruct (next_signal d); exact Hstart.
Qed.

Lemma button_events_alternate_witness :
  published (snd (debounce_all buttons_init [0; 0; 1; 1; 0; 1; 1; 0; 0]))
  = [SERVE_SIG; PAUSE_SIG; SERVE_SIG]
  /\ alternates
       (published
          (snd (debounce_all buttons_init [0; 0; 1; 1; 0; 1; 1; 0; 0])))
     = true.
Proof.
  split; [reflexivity|].
  apply (button_events_alternate [0; 0; 1; 1; 0; 1; 1; 0; 0]).
  repeat (apply Forall_cons_2;
          [first [left; reflexivity | right; reflexivity]|]).
  apply Forall_nil_2.
Defined.

End ButtonEventFacts.

(* ====================================================================== *)
(** * Further properties of the host-name parsing *)
(* ====================================================================== *)

Section ParseMoreFacts.

Import QUTestPort.

(** The copy loop writes the array between the old and the new [dst]
    only. *)
Lemma copy_loop_frame (room : nat) :
  forall (s : list ascii) (src dst : nat) (buf : list ascii)
         (src' dst' : nat) (buf' : list ascii),
    copy_loop room s src dst buf = Some (src', dst', buf') ->
    dst <= dst'
    /\ take dst buf' = take dst buf
    /\ drop dst' buf' = drop dst' buf.
Proof.
  induction room as [|room IH]; intros s src dst buf src' dst' buf' Hrun;
    cbn [copy_loop] in Hrun.
  - simplify_eq. auto.
  - destruct (negb (Ascii.eqb (deref s src) NUL)
              && negb (Ascii.eqb (deref s src) COLON)); [|simplify_eq; auto].
    unfold store in Hrun.
    destruct (dst <? length buf); [|discriminate].
    apply IH in Hrun as (Hle & Htake & Hdrop).
    split; [lia|]. split.
    + replace (take dst buf') with (take dst (take (S dst) buf'))
        by (rewrite take_take; f_equal; lia).
      rewrite Htake, take_take, Nat.min_l by lia.
      apply take_insert_ge. lia.
    + rewrite Hdrop. apply drop_insert_lt. lia.
Qed.

Lemma split_arg_host_no_colon (s : list ascii) :
  Forall (fun c => Ascii.eqb c COLON = false) (fst (split_arg s)).
Proof.
  induction s as [|c s IH]; cbn [split_arg]; [constructor|].
  destruct (Ascii.eqb c NUL); [constructor|].
  destruct (Ascii.eqb c COLON) eqn:Hcol; [constructor|].
  destruct (split_arg s) as [h r]. cbn [fst] in *.
  constructor; assumption.
Qed.

(** X13: the parsing of [QS::onStartup] writes the host name and its
    terminator and nothing else: the bytes of [hostName] behind the
    terminator stay as they were, and the host name that goes to
    [getaddrinfo()] holds neither a colon nor a NUL. *)
Theorem onStartup_parse_frame (arg : option (list ascii))
  (hostName : list ascii) (Hsize : length hostName = HOSTNAME_SIZE) :
  exists p,
    onStartup_parse arg hostName = Some p
    /\ drop (S (host_len p)) (hostName_buf p)
       = drop (S (host_len p)) hostName
    /\ Forall (fun c => Ascii.eqb c COLON = false
                        /\ Ascii.eqb c NUL = false)
              (c_text (hostName_buf p)).
Proof.
  destruct (onStartup_parse_spec arg hostName Hsize)
    as (p & Hp & _ & _ & _ & Htext & _).
  exists p. split; [exact Hp|]. split.
  - unfold onStartup_parse in Hp.
    destruct (copy_loop (HOSTNAME_SIZE - 1) (arg_text arg) 0 0 hostName)
      as [[[src dst] buf1]|] eqn:Hloop;
      [|unfold arg_text in Hloop; rewrite Hloop in Hp; discriminate].
    unfold arg_text in Hloop. rewrite Hloop in Hp.
    unfold store in Hp.
    destruct (dst <? length buf1); [|discriminate].
    simplify_eq. cbn [host_len hostName_buf].
    apply copy_loop_frame in Hloop as (_ & _ & Hdrop).
    rewrite drop_insert_lt by lia.
    replace (S dst) with (dst + 1) by lia.
    rewrite <- !drop_drop, Hdrop. reflexivity.
  - rewrite Htext. apply Forall_take.
    pose proof (split_arg_host_no_colon (arg_text arg)) as Hc.
    pose proof (split_arg_host_no_nul (arg_text arg)) as Hn.
    unfold spec_host.
    induction Hc as [|c h Hcc _ IH]; [constructor|].
    inversion Hn; subst. constructor; auto.
Qed.

Lemma onStartup_parse_frame_witness :
  exists p,
    onStartup_parse (Some (list_ascii_of_string "pc:7"))
                    (replicate 128 "x"%char) = Some p
    /\ drop (S (host_len p)) (hostName_buf p) = replicate 125 "x"%char.
Proof.
  destruct (onStartup_parse_frame (Some (list_ascii_of_string "pc:7"))
              (replicate 128 "x"%char) eq_refl)
    as (p & Hp & Hdrop & _).
  exists p. split; [exact Hp|].
  rewrite Hdrop.
  vm_compute in Hp. injection Hp as <-. reflexivity.
Defined.

End ParseMoreFacts.
